(** * ClawK streaming TTS gateway: [src/ClawK/Resources/tts_server.py]

    A shallow embedding of the gateway's admission control, sliding-log
    rate limiter, per-message protocol and shutdown sequence, with the
    properties of its specification stated and proved over it.

    Conventions of the embedding.
    - Python [str] is [string]; a character stands for one code point, so
      [len] is [String.length].  [bytes] is [list Byte.byte].
    - [time.monotonic()] is read by the caller and passed as [now].  The
      limiter is given twice: [Binary64.check_rate_limit] on binary64
      floats with the subtraction and comparison of the source, used where
      the edge of the window is at stake, and [check_rate_limit] on
      rationals ([Q]) with [now - t] exact, which the handler and the
      properties of whole runs use; what is stated over the latter about
      the edge of the window allows for the spacing of binary64 numbers
      below 60.
    - The two module-level containers, [connected_clients] (a set) and
      [rate_limit_tracker] (a dict), are fields of an explicit [state].
    - [handle_tts] touches the shared state only before its first [await]
      in each loop iteration (the rate check and the health count), so one
      inbound message is one atomic step on [state] that also yields the
      ordered list of effects the coroutine performs for that message.
    - Within an iteration every [send] succeeds; a peer that goes away is
      the separate event [Ev_closed], after which the [finally] block runs.
    - [json.loads] (standard library) and [os.environ] are parameters of the
      development; the synthesis collaborator [edge_tts.Communicate] is an
      oracle supplied with every message. *)

From Stdlib Require Import QArith Lqa.
From Stdlib Require Import Floats.
From stdpp Require Import gmap strings list fin_maps fin_sets pretty.
From stdpp Require Import sorting.
From Stdlib Require Import Strings.Byte.


(** ** Module constants *)

Definition MAX_TEXT_LENGTH : nat := 5000.
Definition MAX_CONNECTIONS : nat := 5.
Definition RATE_LIMIT_WINDOW : Q := 60.
Definition RATE_LIMIT_MAX_REQUESTS : nat := 20.
Definition SHUTDOWN_TIMEOUT : Q := 5.
Definition SERVER_VERSION : string := "1.0.0".

Definition ALLOWED_VOICES : gset string :=
  {[ "en-GB-RyanNeural"; "en-US-GuyNeural"; "en-US-JennyNeural";
     "en-US-AriaNeural"; "en-GB-SoniaNeural"; "en-AU-NatashaNeural";
     "en-AU-WilliamNeural"; "en-IN-NeerjaNeural"; "en-IN-PrabhatNeural" ]}.

(** ** The rate limiter *)

#[global] Instance Qlt_dec : RelDecision Qlt.
Proof.
  intros x y. destruct (Qlt_le_dec x y) as [H | H].
  - left; exact H.
  - right; apply Qle_not_lt; exact H.
Defined.

#[global] Instance Qle_dec : RelDecision Qle.
Proof.
  intros x y. destruct (Qlt_le_dec y x) as [H | H].
  - right; apply Qlt_not_le; exact H.
  - left; exact H.
Defined.

Module RateLimiter.

(** [check_rate_limit(remote)], with [key = str(remote)] and the clock
    reading [now] as arguments and the tracker threaded through.  The
    comprehension builds a fresh list, so the [append] aliases nothing. *)
Definition check_rate_limit (key : string) (now : Q)
    (rate_limit_tracker : gmap string (list Q)) : bool * gmap string (list Q) :=
  let timestamps := default [] (rate_limit_tracker !! key) in
  let timestamps := filter (λ t, now - t < RATE_LIMIT_WINDOW)%Q timestamps in
  if decide (RATE_LIMIT_MAX_REQUESTS ≤ length timestamps) then
    (false, <[key := timestamps]> rate_limit_tracker)
  else
    (true, <[key := timestamps ++ [now]]> rate_limit_tracker).

(** Successive calls for one key at the clock readings [times]; the
    decisions are returned in call order. *)
Fixpoint check_many (key : string) (times : list Q)
    (tracker : gmap string (list Q)) : list bool * gmap string (list Q) :=
  match times with
  | [] => ([], tracker)
  | now :: rest =>
      let '(ok, tracker') := check_rate_limit key now tracker in
      let '(oks, tracker'') := check_many key rest tracker' in
      (ok :: oks, tracker'')
  end.

(** The timestamps stored for [key]; an absent key reads as empty. *)
Definition entry (key : string) (tracker : gmap string (list Q)) : list Q :=
  default [] (tracker !! key).

(** Every stored timestamp has reached the age of the window at [now]. *)
Definition all_expired (now : Q) (stored : list Q) : Prop :=
  Forall (λ t, RATE_LIMIT_WINDOW <= now - t)%Q stored.

End RateLimiter.
Import RateLimiter.

(** ** The rate limiter on binary64 clock readings *)

Module Binary64.

(** [RATE_LIMIT_WINDOW = 60] as the float it is compared with: Python
    compares a float with an int exactly, and 60 is a binary64 number. *)
Definition RATE_LIMIT_WINDOW : float := 60%float.

(** [now - t < RATE_LIMIT_WINDOW], with the binary64 subtraction (rounded
    to nearest, ties to even) and comparison of the source. *)
Definition in_window (now t : float) : bool :=
  PrimFloat.ltb (PrimFloat.sub now t) RATE_LIMIT_WINDOW.

(** [check_rate_limit(remote)] on the floats [time.monotonic()] returns. *)
Definition check_rate_limit (key : string) (now : float)
    (rate_limit_tracker : gmap string (list float))
    : bool * gmap string (list float) :=
  let timestamps := default [] (rate_limit_tracker !! key) in
  let timestamps := filter (λ t, in_window now t = true) timestamps in
  if decide (RATE_LIMIT_MAX_REQUESTS ≤ length timestamps) then
    (false, <[key := timestamps]> rate_limit_tracker)
  else
    (true, <[key := timestamps ++ [now]]> rate_limit_tracker).

(** Successive calls for one key at the clock readings [times]. *)
Fixpoint check_many (key : string) (times : list float)
    (tracker : gmap string (list float))
    : list bool * gmap string (list float) :=
  match times with
  | [] => ([], tracker)
  | now :: rest =>
      let '(ok, tracker') := check_rate_limit key now tracker in
      let '(oks, tracker'') := check_many key rest tracker' in
      (ok :: oks, tracker'')
  end.

Definition entry (key : string) (tracker : gmap string (list float))
    : list float :=
  default [] (tracker !! key).

(** The algorithm in the words of the specification, section 4.2: "read
    the entry (absent means empty); discard timestamps older than
    [now - WINDOW]; if the remaining count is at least [MAX_REQUESTS],
    store the pruned list back and deny; otherwise append [now], store,
    and let the request in".  A timestamp is older than an instant when it
    lies strictly before it. *)
Definition Allow_as_stated (key : string) (now : float)
    (tracker : gmap string (list float)) : bool * gmap string (list float) :=
  let entry := default [] (tracker !! key) in
  let remaining :=
    filter (λ t, PrimFloat.ltb t (PrimFloat.sub now RATE_LIMIT_WINDOW) = false)
      entry in
  if decide (RATE_LIMIT_MAX_REQUESTS ≤ length remaining) then
    (false, <[key := remaining]> tracker)
  else
    (true, <[key := remaining ++ [now]]> tracker).

(** The same steps with the pruning test read on the age: a timestamp is
    discarded when its age [now - t], as computed, is not less than the
    window. *)
Definition Allow_by_age (key : string) (now : float)
    (tracker : gmap string (list float)) : bool * gmap string (list float) :=
  let entry := default [] (tracker !! key) in
  let discarded t := negb (PrimFloat.ltb (PrimFloat.sub now t) RATE_LIMIT_WINDOW) in
  let remaining := filter (λ t, discarded t = false) entry in
  if decide (RATE_LIMIT_MAX_REQUESTS ≤ length remaining) then
    (false, <[key := remaining]> tracker)
  else
    (true, <[key := remaining ++ [now]]> tracker).

(** Clock readings that fall within one window as the code measures it:
    the computed difference of any two of them is less than the window. *)
Definition within_one_window (times : list float) : Prop :=
  Forall (λ t, Forall (λ u, in_window u t = true) times) times.

(** The computed age of every stored timestamp has reached the window. *)
Definition all_expired (now : float) (stored : list float) : Prop :=
  Forall (λ t, in_window now t = false) stored.

(** The floats 0, 1, ..., n-1. *)
Fixpoint seconds (n : nat) : list float :=
  match n with
  | O => []
  | S n' => seconds n' ++ [PrimFloat.of_uint63 (Uint63.of_Z (Z.of_nat n'))]
  end.

End Binary64.

(** ** Python values and exceptions *)

Definition bytes := list byte.

#[global] Instance byte_eq_dec : EqDecision byte := Byte.byte_eq_dec.

(** A value produced by [json.loads] or handed to [json.dumps].  A float
    is kept as its binary64 bit pattern; nothing in the server looks
    inside one. *)
#[warnings="-register-all"] Inductive pyval :=
  | PyNone
  | PyBool (b : bool)
  | PyInt (n : Z)
  | PyFloat (bits : Z)
  | PyStr (s : string)
  | PyList (items : list pyval)
  | PyDict (items : gmap string pyval).

Inductive exn :=
  | JSONDecodeError
  | UnicodeDecodeError
  | RecursionError
  | KeyError
  | TypeError
  | AttributeError.

#[global] Instance exn_eq_dec : EqDecision exn.
Proof. solve_decision. Defined.

(** Code that either returns or raises. *)
Inductive result (A : Type) :=
  | Return (a : A)
  | Raise (e : exn).
Arguments Return {A} a.
Arguments Raise {A} e.

#[global] Instance result_ret : MRet result := λ A a, Return a.

#[global] Instance result_bind : MBind result := λ A B k r,
  match r with
  | Return a => k a
  | Raise e => Raise e
  end.

(** [try: body except (E1, ...): handler] for a body without effects. *)
Definition try_except {A} (body : result A) (catches : exn → bool)
    (handler : result A) : result A :=
  match body with
  | Return a => Return a
  | Raise e => if catches e then handler else Raise e
  end.

Module Py.

(** [msg.get(key)]: a method of [dict] only. *)
Definition get (msg : pyval) (key : string) : result (option pyval) :=
  match msg with
  | PyDict items => Return (items !! key)
  | _ => Raise AttributeError
  end.

(** [msg[key]] with a string key. *)
Definition getitem (msg : pyval) (key : string) : result pyval :=
  match msg with
  | PyDict items =>
      match items !! key with
      | Some v => Return v
      | None => Raise KeyError
      end
  | _ => Raise TypeError
  end.

(** [len(v)]. *)
Definition len (v : pyval) : result nat :=
  match v with
  | PyStr s => Return (String.length s)
  | PyList items => Return (length items)
  | PyDict items => Return (size items)
  | _ => Raise TypeError
  end.

(** [v not in ALLOWED_VOICES]: the set hashes [v] first, and lists and
    dicts are unhashable; a hashable value that is not a string equals
    no member. *)
Definition not_in_allowed (v : pyval) : result bool :=
  match v with
  | PyList _ | PyDict _ => Raise TypeError
  | PyStr s => Return (bool_decide (s ∉ ALLOWED_VOICES))
  | _ => Return true
  end.

(** Whether [hash(v)] succeeds. *)
Definition hashable (v : pyval) : bool :=
  match v with
  | PyList _ | PyDict _ => false
  | _ => true
  end.

(** [isinstance(v, dict)]. *)
Definition is_dict (v : pyval) : bool :=
  match v with
  | PyDict _ => true
  | _ => false
  end.

(** [v[:80]], evaluated for the log line; only whether it raises is
    kept.  Slicing a dict raises [TypeError] up to Python 3.11 and
    [KeyError] from 3.12 on. *)
Definition slice_80 (v : pyval) : result unit :=
  match v with
  | PyStr _ | PyList _ => Return tt
  | _ => Raise TypeError
  end.

(** [str.isspace] on the code points below 256. *)
Definition isspace (c : Ascii.ascii) : bool :=
  let n := Ascii.nat_of_ascii c in
  bool_decide (9 ≤ n ≤ 13 ∨ 28 ≤ n ≤ 32 ∨ n = 133 ∨ n = 160).

Fixpoint lstrip (s : string) : string :=
  match s with
  | EmptyString => EmptyString
  | String c s' => if isspace c then lstrip s' else s
  end.

(** [s.strip()]. *)
Definition strip (s : string) : string :=
  String.rev (lstrip (String.rev (lstrip s))).

End Py.

(** ** Messages, chunks and effects *)

(** One inbound message: [str] for a text frame, [bytes] for a binary one. *)
Inductive message :=
  | Text (s : string)
  | Binary (b : bytes).

(** One item yielded by [communicate.stream()]: a dict with a ["type"] and,
    for audio, a ["data"] entry. *)
Record chunk := { chunk_type : string; chunk_data : option bytes }.

(** What the collaborator does once dispatched: it yields [chunks] and is
    then exhausted, or raises an exception whose [str] is the given text
    (with [chunks = []] when the constructor itself raises). *)
Record synthesis := { chunks : list chunk; failure : option string }.

(** The calls [handle_tts] awaits on its connection, and the dispatch to
    the collaborator, one constructor per call site. *)
Inductive effect :=
  | Send_json (payload : pyval)
  | Send_chunk (data : bytes)
  | Send_END
  | Close (code : Z) (reason : string)
  | Communicate (text voice : pyval).

(** What reaches the client for an effect: a text frame holding
    [json.dumps(payload)], or a binary frame. *)
Inductive frame :=
  | Text_frame (payload : pyval)
  | Binary_frame (data : bytes).

Definition END : bytes := [x45; x4e; x44].

Definition wire (e : effect) : option frame :=
  match e with
  | Send_json payload => Some (Text_frame payload)
  | Send_chunk data => Some (Binary_frame data)
  | Send_END => Some (Binary_frame END)
  | Close _ _ | Communicate _ _ => None
  end.

Definition rate_limit_error : pyval :=
  PyDict {[ "error" := PyStr "Rate limit exceeded. Try again later." ]}.

Definition guidance_error : pyval :=
  PyDict {[ "error" := PyStr "Send JSON with 'text' field or a plain text string" ]}.

Definition length_error : pyval :=
  PyDict {[ "error" := PyStr ("Text exceeds maximum length of "
                               +:+ pretty MAX_TEXT_LENGTH +:+ " characters") ]}.

Definition tts_error (e : string) : pyval :=
  PyDict {[ "error" := PyStr ("TTS failed: " +:+ e) ]}.

Definition health_status (connections : nat) : pyval :=
  PyDict {[ "status" := PyStr "ok";
            "version" := PyStr SERVER_VERSION;
            "connections" := PyInt (Z.of_nat connections) ]}.

Definition is_error (e : effect) : bool :=
  match e with
  | Send_json (PyDict items) => bool_decide (is_Some (items !! "error"))
  | _ => false
  end.

Definition is_chunk (e : effect) : bool :=
  match e with Send_chunk _ => true | _ => false end.

Definition is_END (e : effect) : bool :=
  match e with Send_END => true | _ => false end.

Definition is_dispatch (e : effect) : bool :=
  match e with Communicate _ _ => true | _ => false end.

(** ** The connection handler *)

Record websocket := { ws_id : nat; remote_address : string }.

#[global] Instance websocket_eq_dec : EqDecision websocket.
Proof. solve_decision. Defined.

#[global] Instance websocket_countable : Countable websocket.
Proof.
  apply (inj_countable' (λ w, (ws_id w, remote_address w))
           (λ p, {| ws_id := p.1; remote_address := p.2 |})).
  by intros [].
Defined.

(** The module-level containers. *)
Record state := {
  connected_clients : gset websocket;
  rate_limit_tracker : gmap string (list Q)
}.

Definition initial_state : state :=
  {| connected_clients := ∅; rate_limit_tracker := ∅ |}.

(** What the [try] block at the head of the loop body settles on. *)
Inductive request :=
  | Health
  | Synthesize (text voice : pyval)
  | Unrecognised.

Section Handler.

(** [os.environ] at import time, and [json.loads] on an inbound message
    (it accepts [str] and [bytes] alike). *)
Variable environ : gmap string string.
Variable json_loads : message → result pyval.

Definition DEFAULT_VOICE : string :=
  default "en-GB-RyanNeural" (environ !! "EDGE_TTS_VOICE").

(** [msg.get("command") == "health"]. *)
Definition is_health (command : option pyval) : bool :=
  match command with
  | Some (PyStr s) => bool_decide (s = "health")
  | _ => false
  end.

(** The body of the [try] at lines 93-106. *)
Definition decode (raw : message) : result request :=
  msg ← json_loads raw;
  command ← Py.get msg "command";
  if is_health command then mret Health
  else
    text ← Py.getitem msg "text";
    voice ← Py.get msg "voice";
    mret (Synthesize text (default (PyStr DEFAULT_VOICE) voice)).

(** [except (json.JSONDecodeError, KeyError, TypeError)]. *)
Definition caught (e : exn) : bool :=
  match e with
  | JSONDecodeError | KeyError | TypeError => true
  | _ => false
  end.

(** The handler of that [except]: the plain string fallback. *)
Definition plain_string_fallback (raw : message) : request :=
  match raw with
  | Text s =>
      if bool_decide (Py.strip s ≠ "") then
        Synthesize (PyStr (Py.strip s)) (PyStr DEFAULT_VOICE)
      else Unrecognised
  | Binary _ => Unrecognised
  end.

Definition parse_request (raw : message) : result request :=
  try_except (decode raw) caught (mret (plain_string_fallback raw)).

(** The voice validation at lines 127-129: the voice that goes on. *)
Definition validate_voice (voice : pyval) : result pyval :=
  outside ← Py.not_in_allowed voice;
  mret (if (outside : bool) then PyStr DEFAULT_VOICE else voice).

(** The [async for chunk in communicate.stream()] loop over the chunks
    the collaborator yields: the sends made, and the text of the
    exception if reading a chunk raised ([chunk["data"]] missing). *)
Fixpoint forward_chunks (cs : list chunk) : list effect * option string :=
  match cs with
  | [] => ([], None)
  | c :: rest =>
      if bool_decide (chunk_type c = "audio") then
        match chunk_data c with
        | Some data =>
            let '(sent, raised) := forward_chunks rest in
            (Send_chunk data :: sent, raised)
        | None => ([], Some "'data'")
        end
      else forward_chunks rest
  end.

(** The chunks of a stream that are audio, and their payloads. *)
Definition audio_only (cs : list chunk) : list chunk :=
  filter (λ c, chunk_type c = "audio") cs.

Definition audio_payloads (cs : list chunk) : list bytes :=
  omap chunk_data (audio_only cs).

(** Every audio chunk carries its ["data"], as the collaborator's chunk
    type promises. *)
Definition well_formed (cs : list chunk) : Prop :=
  Forall (λ c, chunk_type c = "audio" → is_Some (chunk_data c)) cs.

(** The [try] at lines 134-148 with its [except Exception]. *)
Definition stream_tts (text voice : pyval)
    (synth : pyval → pyval → synthesis) : list effect :=
  let produced := synth text voice in
  let '(sent, raised) := forward_chunks (chunks produced) in
  let raised := match raised with
                | Some e => Some e
                | None => failure produced
                end in
  Communicate text voice :: sent ++
    match raised with
    | None => [Send_END]
    | Some e => [Send_json (tts_error e); Send_END]
    end.

(** Lines 118-148, for a request the parse step produced. *)
Definition serve_request (text voice : pyval)
    (synth : pyval → pyval → synthesis) : result (list effect) :=
  n ← Py.len text;
  if bool_decide (MAX_TEXT_LENGTH < n) then mret [Send_json length_error]
  else
    voice ← validate_voice voice;
    _ ← Py.slice_80 text;
    mret (stream_tts text voice synth).

(** Lines 75-80: the connection limit.  The boolean tells whether the
    handler goes on into its loop. *)
Definition accept_connection (websocket : websocket) (σ : state)
    : state * list effect * bool :=
  if decide (MAX_CONNECTIONS ≤ size (connected_clients σ)) then
    (σ, [Close 1013 "Maximum connections reached"], false)
  else
    ({| connected_clients := {[ websocket ]} ∪ connected_clients σ;
        rate_limit_tracker := rate_limit_tracker σ |}, [], true).

(** One iteration of [async for raw in websocket]: the new shared state,
    the effects in order, and the exception that leaves the loop, if
    any. *)
Definition loop_body (websocket : websocket) (raw : message) (now : Q)
    (synth : pyval → pyval → synthesis) (σ : state)
    : state * list effect * option exn :=
  let remote := remote_address websocket in
  let '(allowed, tracker) :=
    check_rate_limit remote now (rate_limit_tracker σ) in
  let σ := {| connected_clients := connected_clients σ;
              rate_limit_tracker := tracker |} in
  if negb allowed then (σ, [Send_json rate_limit_error], None)
  else
    match parse_request raw with
    | Raise e => (σ, [], Some e)
    | Return Health =>
        (σ, [Send_json (health_status (size (connected_clients σ)))], None)
    | Return Unrecognised => (σ, [Send_json guidance_error], None)
    | Return (Synthesize text voice) =>
        match serve_request text voice synth with
        | Return effects => (σ, effects, None)
        | Raise e => (σ, [], Some e)
        end
    end.

(** The [finally] block. *)
Definition finally (websocket : websocket) (σ : state) : state :=
  {| connected_clients := connected_clients σ ∖ {[ websocket ]};
     rate_limit_tracker :=
       delete (remote_address websocket) (rate_limit_tracker σ) |}.

(** ** The server: sessions and [main] *)

(** Where [main] stands: awaiting [stop]; awaiting the close tasks with
    the listener still open; past [server.close()]. *)
Inductive phase := Serving | Draining | Stopped.

Record server := { shared : state; main_phase : phase }.

Definition initial_server : server :=
  {| shared := initial_state; main_phase := Serving |}.

Inductive event :=
  | Ev_connect (ws : websocket)
  | Ev_message (ws : websocket) (raw : message) (now : Q)
               (synth : pyval → pyval → synthesis)
  | Ev_closed (ws : websocket)
  | Ev_signal
  | Ev_drain_over.

Inductive action :=
  | On (ws : websocket) (e : effect)
  | Handler_raised (ws : websocket) (e : exn)
  | Create_close_task (ws : websocket) (code : Z) (reason : string)
  | Await_wait (tasks : nat) (timeout : Q)
  | Server_close
  | Await_wait_closed (timeout : Q).

(** Lines 178-189 of [main] up to its first [await]: the close tasks for
    [list(connected_clients)], then either the bounded wait for them or,
    with no task, [server.close()] at once. *)
Definition main_after_stop (clients : list websocket) : list action * phase :=
  let close_tasks :=
    (λ ws, Create_close_task ws 1001 "Server shutting down") <$> clients in
  match close_tasks with
  | [] => ([Server_close; Await_wait_closed SHUTDOWN_TIMEOUT], Stopped)
  | _ :: _ =>
      (close_tasks ++ [Await_wait (length close_tasks) SHUTDOWN_TIMEOUT],
       Draining)
  end.

(** Lines 188-189, run when [asyncio.wait] returns, whether every task
    finished or the timeout elapsed. *)
Definition main_after_drain : list action :=
  [Server_close; Await_wait_closed SHUTDOWN_TIMEOUT].

(** The close requests among the actions of [main], in order. *)
Definition close_requests (out : list action)
    : list (websocket * Z * string) :=
  omap (λ a, match a with
             | Create_close_task ws code reason => Some (ws, code, reason)
             | _ => None
             end) out.

Definition stops_listener (a : action) : bool :=
  match a with Server_close => true | _ => false end.

Definition listening (p : phase) : bool :=
  match p with
  | Serving | Draining => true
  | Stopped => false
  end.

(** One event of the event loop.  A connection reaches [handle_tts] only
    while the listener is open; a message or a close reaches a handler
    only while its websocket is registered, that is, inside the [try]. *)
Definition step (s : server) (ev : event) : server * list action :=
  match ev with
  | Ev_connect ws =>
      if listening (main_phase s) then
        let '(σ, effects, _) := accept_connection ws (shared s) in
        ({| shared := σ; main_phase := main_phase s |}, On ws <$> effects)
      else (s, [])
  | Ev_message ws raw now synth =>
      if decide (ws ∈ connected_clients (shared s)) then
        let '(σ, effects, raised) := loop_body ws raw now synth (shared s) in
        match raised with
        | None =>
            ({| shared := σ; main_phase := main_phase s |}, On ws <$> effects)
        | Some e =>
            ({| shared := finally ws σ; main_phase := main_phase s |},
             (On ws <$> effects) ++ [Handler_raised ws e])
        end
      else (s, [])
  | Ev_closed ws =>
      if decide (ws ∈ connected_clients (shared s)) then
        ({| shared := finally ws (shared s); main_phase := main_phase s |}, [])
      else (s, [])
  | Ev_signal =>
      match main_phase s with
      | Serving =>
          let '(actions, p) :=
            main_after_stop (elements (connected_clients (shared s))) in
          ({| shared := shared s; main_phase := p |}, actions)
      | _ => (s, [])
      end
  | Ev_drain_over =>
      match main_phase s with
      | Draining =>
          ({| shared := shared s; main_phase := Stopped |}, main_after_drain)
      | _ => (s, [])
      end
  end.

Fixpoint run (s : server) (evs : list event) : server * list action :=
  match evs with
  | [] => (s, [])
  | ev :: rest =>
      let '(s', out) := step s ev in
      let '(s'', out') := run s' rest in
      (s'', out ++ out')
  end.

Definition reachable (s : server) : Prop :=
  ∃ evs, (run initial_server evs).1 = s.

Definition within_limit (s : server) : Prop :=
  size (connected_clients (shared s)) ≤ MAX_CONNECTIONS.

End Handler.

(** ** Histories *)



(** Every rate entry is keyed by the address of a registered session. *)
Definition entries_owned (σ : state) : Prop :=
  ∀ key, is_Some (rate_limit_tracker σ !! key) →
         ∃ ws, ws ∈ connected_clients σ ∧ remote_address ws = key.

(** No rate entry holds more than [RATE_LIMIT_MAX_REQUESTS] timestamps. *)
Definition entries_bounded (σ : state) : Prop :=
  ∀ key, length (entry key (rate_limit_tracker σ)) ≤ RATE_LIMIT_MAX_REQUESTS.

(** Output in which [main] neither requests a close nor stops the
    listener. *)
Definition quiet (out : list action) : Prop :=
  close_requests out = [] ∧ filter (λ a, stops_listener a) out = [].

(** What [main] does in the rest of a run, by where it stands. *)
Definition main_budget (p : phase) (out : list action) : Prop :=
  match p with
  | Serving =>
      NoDup (close_requests out)
      ∧ length (filter (λ a, stops_listener a) out) ≤ 1
  | Draining =>
      close_requests out = []
      ∧ length (filter (λ a, stops_listener a) out) ≤ 1
  | Stopped => quiet out
  end.

(** Whether every character of [s] is whitespace ([s.isspace()], or [s]
    empty). *)
Fixpoint all_whitespace (s : string) : bool :=
  match s with
  | EmptyString => true
  | String c s' => Py.isspace c && all_whitespace s'
  end.

(** ** Sample inputs *)

Module Sample.

Definition dquote : string := String (Ascii.ascii_of_nat 34) EmptyString.

Definition quoted (s : string) : string := dquote +:+ s +:+ dquote.

(** The text [{"command": "health"}]. *)
Definition health_text : string :=
  "{" +:+ quoted "command" +:+ ": " +:+ quoted "health" +:+ "}".

(** The text [{"text": "hi", "voice": "nope"}]. *)
Definition request_text : string :=
  "{" +:+ quoted "text" +:+ ": " +:+ quoted "hi" +:+ ", "
      +:+ quoted "voice" +:+ ": " +:+ quoted "nope" +:+ "}".

(** [json.loads] on the messages used in the worked examples: the two
    objects above, the number [123], the lone byte [0xff] (not UTF-8),
    and otherwise input that is not JSON. *)
Definition json_loads (raw : message) : result pyval :=
  match raw with
  | Text s =>
      if bool_decide (s = health_text) then
        Return (PyDict {[ "command" := PyStr "health" ]})
      else if bool_decide (s = request_text) then
        Return (PyDict {[ "text" := PyStr "hi"; "voice" := PyStr "nope" ]})
      else if bool_decide (s = "123") then Return (PyInt 123)
      else Raise JSONDecodeError
  | Binary b =>
      if bool_decide (b = [xff] :> list byte) then Raise UnicodeDecodeError
      else Raise JSONDecodeError
  end.

(** A collaborator that yields one audio chunk between two metadata
    chunks and is then exhausted. *)
Definition one_chunk (text voice : pyval) : synthesis :=
  {| chunks := [ {| chunk_type := "WordBoundary"; chunk_data := None |};
                 {| chunk_type := "audio"; chunk_data := Some [x49; x44; x33] |};
                 {| chunk_type := "SentenceBoundary"; chunk_data := None |} ];
     failure := None |}.

(** A collaborator that raises after its first audio chunk. *)
Definition failing (text voice : pyval) : synthesis :=
  {| chunks := [ {| chunk_type := "audio"; chunk_data := Some [x49; x44; x33] |} ];
     failure := Some "No audio was received" |}.

Definition ws (n : nat) : websocket :=
  {| ws_id := n; remote_address := "peer" +:+ pretty n |}.

(** A text of [n] characters. *)
Fixpoint letters (n : nat) : string :=
  match n with
  | O => EmptyString
  | S n' => String (Ascii.ascii_of_nat 97) (letters n')
  end.

(** One registered session and an empty tracker. *)
Definition one : state :=
  {| connected_clients := {[ ws 0 ]}; rate_limit_tracker := ∅ |}.

(** Five registered sessions and an empty tracker. *)
Definition full : state :=
  {| connected_clients := list_to_set (ws <$> seq 0 5);
     rate_limit_tracker := ∅ |}.

(** One session whose budget is spent: twenty requests at second 0. *)
Definition spent : state :=
  {| connected_clients := {[ ws 0 ]};
     rate_limit_tracker := {[ remote_address (ws 0) := replicate 20 0%Q ]} |}.

(** The default voice overridden with a voice outside the allow-set. *)
Definition environ_fr : gmap string string :=
  {[ "EDGE_TTS_VOICE" := "fr-FR-DeniseNeural" ]}.

End Sample.

(** More sample inputs, for the further properties. *)
Module Sample2.

(** The text [{"voice": "en-US-GuyNeural"}]: an object without ["text"]. *)
Definition voice_only_text : string :=
  "{" +:+ Sample.quoted "voice" +:+ ": " +:+ Sample.quoted "en-US-GuyNeural" +:+ "}".

(** The text [{"text": "hi", "voice": "en-US-GuyNeural"}]. *)
Definition guy_text : string :=
  "{" +:+ Sample.quoted "text" +:+ ": " +:+ Sample.quoted "hi" +:+ ", "
      +:+ Sample.quoted "voice" +:+ ": " +:+ Sample.quoted "en-US-GuyNeural" +:+ "}".

(** [json.loads] on those two texts, and as [Sample.json_loads] elsewhere. *)
Definition json_loads (raw : message) : result pyval :=
  match raw with
  | Text s =>
      if bool_decide (s = voice_only_text) then
        Return (PyDict {[ "voice" := PyStr "en-US-GuyNeural" ]})
      else if bool_decide (s = guy_text) then
        Return (PyDict {[ "text" := PyStr "hi";
                          "voice" := PyStr "en-US-GuyNeural" ]})
      else Sample.json_loads raw
  | Binary _ => Sample.json_loads raw
  end.

(** A stream whose second audio chunk lacks its ["data"]. *)
Definition broken_chunks : list chunk :=
  [ {| chunk_type := "audio"; chunk_data := Some [x49; x44; x33] |};
    {| chunk_type := "audio"; chunk_data := None |};
    {| chunk_type := "audio"; chunk_data := Some [x00] |} ].

End Sample2.

(** Sample requests at the length limit. *)
Module Sample3.

(** The text [{"text": "aa...a"}] with [n] letters. *)
Definition request_of_length (n : nat) : string :=
  "{" +:+ Sample.quoted "text" +:+ ": " +:+ Sample.quoted (Sample.letters n)
      +:+ "}".

(** [json.loads] on the requests of [MAX_TEXT_LENGTH] and of
    [MAX_TEXT_LENGTH + 1] letters, and as [Sample2.json_loads] elsewhere. *)
Definition json_loads (raw : message) : result pyval :=
  match raw with
  | Text s =>
      if bool_decide (s = request_of_length MAX_TEXT_LENGTH) then
        Return (PyDict {[ "text" := PyStr (Sample.letters MAX_TEXT_LENGTH) ]})
      else if bool_decide (s = request_of_length (S MAX_TEXT_LENGTH)) then
        Return (PyDict {[ "text" := PyStr (Sample.letters (S MAX_TEXT_LENGTH)) ]})
      else Sample2.json_loads raw
  | Binary _ => Sample2.json_loads raw
  end.

End Sample3.

(** * Properties *)

(** ** The rate limiter *)

Section RateLimiterFacts.

Implicit Types (key : string) (now t : Q) (times stored : list Q).
Implicit Types (tracker : gmap string (list Q)).

Lemma check_rate_limit_unfold key now tracker :
  check_rate_limit key now tracker =
    let kept := filter (λ t, now - t < RATE_LIMIT_WINDOW)%Q (entry key tracker) in
    if decide (RATE_LIMIT_MAX_REQUESTS ≤ length kept)
    then (false, <[key := kept]> tracker)
    else (true, <[key := kept ++ [now]]> tracker).
Proof. reflexivity. Qed.

Lemma filter_all {A} (P : A → Prop) `{!∀ x, Decision (P x)} (l : list A) :
  Forall P l → filter P l = l.
Proof.
  induction 1 as [| x l Hx _ IH]; [done |].
  by rewrite filter_cons_True, IH.
Qed.

Lemma filter_none {A} (P : A → Prop) `{!∀ x, Decision (P x)} (l : list A) :
  Forall (λ x, ¬ P x) l → filter P l = [].
Proof.
  induction 1 as [| x l Hx _ IH]; [done |].
  by rewrite filter_cons_False, IH.
Qed.

Lemma entry_insert key stored tracker :
  entry key (<[key := stored]> tracker) = stored.
Proof. unfold entry. by rewrite lookup_insert_eq. Qed.

Lemma check_rate_limit_expired key now tracker :
  all_expired now (entry key tracker) →
  check_rate_limit key now tracker = (true, <[key := [now]]> tracker).
Proof.
  intros Hall. rewrite check_rate_limit_unfold. cbv zeta.
  rewrite filter_none.
  - destruct (decide _) as [Hfull | _]; [| done].
    cbn in Hfull. unfold RATE_LIMIT_MAX_REQUESTS in Hfull. lia.
  - eapply Forall_impl; [exact Hall |].
    intros t Ht. cbn in Ht. apply Qle_not_lt. exact Ht.
Qed.

End RateLimiterFacts.

(** ** The rate limiter on binary64 clock readings *)

Section Binary64Facts.

Implicit Types (key : string) (now t : float) (times stored : list float).
Implicit Types (tracker : gmap string (list float)).

Lemma binary64_unfold key now tracker :
  Binary64.check_rate_limit key now tracker =
    let kept := filter (λ t, Binary64.in_window now t = true)
                  (Binary64.entry key tracker) in
    if decide (RATE_LIMIT_MAX_REQUESTS ≤ length kept)
    then (false, <[key := kept]> tracker)
    else (true, <[key := kept ++ [now]]> tracker).
Proof. reflexivity. Qed.

Lemma binary64_entry_insert key stored tracker :
  Binary64.entry key (<[key := stored]> tracker) = stored.
Proof. unfold Binary64.entry. by rewrite lookup_insert_eq. Qed.

(** Below the limit the call lets the request in, whatever the clock
    says. *)
Lemma binary64_allows key now tracker :
  length (Binary64.entry key tracker) < RATE_LIMIT_MAX_REQUESTS →
  ∃ kept, length kept ≤ length (Binary64.entry key tracker)
    ∧ Binary64.check_rate_limit key now tracker
      = (true, <[key := kept ++ [now]]> tracker).
Proof.
  intros Hlen. rewrite binary64_unfold. cbv zeta.
  set (kept := filter _ _).
  assert (length kept ≤ length (Binary64.entry key tracker))
    by apply length_filter.
  exists kept. split; [done |].
  destruct (decide _); [lia | done].
Qed.

Lemma binary64_many_allows key times : ∀ tracker,
  length (Binary64.entry key tracker) + length times
  ≤ RATE_LIMIT_MAX_REQUESTS →
  (Binary64.check_many key times tracker).1 = replicate (length times) true.
Proof.
  induction times as [| now rest IH]; intros tracker Hlen; [done |].
  cbn [Binary64.check_many length] in *.
  destruct (binary64_allows key now tracker) as (kept & Hk & ->); [lia |].
  specialize (IH (<[key := kept ++ [now]]> tracker)).
  destruct (Binary64.check_many key rest _) as [oks tracker''].
  cbn in *. f_equal. apply IH.
  rewrite binary64_entry_insert, length_app. cbn. lia.
Qed.

(** Readings whose computed differences stay below the window are all
    retained. *)
Lemma binary64_many_retains key times : ∀ tracker,
  length (Binary64.entry key tracker) + length times
  ≤ RATE_LIMIT_MAX_REQUESTS →
  (∀ t u, t ∈ Binary64.entry key tracker ++ times → u ∈ times →
          Binary64.in_window u t = true) →
  Binary64.entry key (Binary64.check_many key times tracker).2
  = Binary64.entry key tracker ++ times.
Proof.
  induction times as [| now rest IH]; intros tracker Hlen Hwin.
  { cbn. by rewrite app_nil_r. }
  cbn [Binary64.check_many length] in *.
  rewrite binary64_unfold. cbv zeta.
  rewrite filter_all; last first.
  { apply Forall_forall. intros t Ht.
    apply Hwin; [apply elem_of_app; by left | apply list_elem_of_here]. }
  destruct (decide _) as [Hfull | _]; [lia |].
  specialize (IH (<[key := Binary64.entry key tracker ++ [now]]> tracker)).
  destruct (Binary64.check_many key rest _) as [oks tracker''].
  cbn in *. rewrite IH.
  - by rewrite binary64_entry_insert, <- app_assoc.
  - rewrite binary64_entry_insert, length_app. cbn. lia.
  - intros t u Ht Hu. rewrite binary64_entry_insert, <- app_assoc in Ht.
    apply Hwin; [done | by apply list_elem_of_further].
Qed.

Lemma binary64_denies key now tracker stored :
  tracker !! key = Some stored →
  RATE_LIMIT_MAX_REQUESTS ≤ length stored →
  Forall (λ t, Binary64.in_window now t = true) stored →
  Binary64.check_rate_limit key now tracker = (false, tracker).
Proof.
  intros Hk Hlen Hall. rewrite binary64_unfold. cbv zeta.
  unfold Binary64.entry. rewrite Hk.
  change (default [] (Some stored)) with stored.
  rewrite filter_all by done.
  destruct (decide _); [| lia].
  by rewrite insert_id.
Qed.

Lemma binary64_expired key now tracker :
  Binary64.all_expired now (Binary64.entry key tracker) →
  Binary64.check_rate_limit key now tracker
  = (true, <[key := [now]]> tracker).
Proof.
  intros Hall. rewrite binary64_unfold. cbv zeta.
  rewrite filter_none.
  - destruct (decide _) as [Hfull | _]; [| done].
    cbn in Hfull. unfold RATE_LIMIT_MAX_REQUESTS in Hfull. lia.
  - eapply Forall_impl; [exact Hall |].
    intros t Ht. cbv beta in Ht |- *. by rewrite Ht.
Qed.

Lemma binary64_by_age key now tracker :
  Binary64.check_rate_limit key now tracker
  = Binary64.Allow_by_age key now tracker.
Proof.
  rewrite binary64_unfold. unfold Binary64.Allow_by_age, Binary64.entry.
  cbv zeta.
  rewrite (list_filter_iff (λ t, Binary64.in_window now t = true)
             (λ t, negb (PrimFloat.ltb (PrimFloat.sub now t)
                           Binary64.RATE_LIMIT_WINDOW) = false)); [done |].
  intros t.
  change (Binary64.in_window now t = true
          ↔ negb (Binary64.in_window now t) = false).
  by destruct (Binary64.in_window now t).
Qed.

End Binary64Facts.

(** C1 (amended at the pruning test).  For a single client key the
    limiter follows the stated steps with the pruning test of the code,
    on the age it computes: it reads the key's list (absent means empty),
    discards every timestamp whose age [now - t], the binary64 difference,
    is not less than [RATE_LIMIT_WINDOW], denies and stores the pruned
    list back when at least [RATE_LIMIT_MAX_REQUESTS] remain, and
    otherwise appends [now], stores and lets the request in.  From an
    empty entry, requests 1 to [RATE_LIMIT_MAX_REQUESTS] are let in; the
    next request is denied, and the stored list left as it is, when the
    computed difference of any two of the clock readings is below the
    window; and a request is let in again once the computed age of every
    earlier timestamp has reached the window. *)
Theorem rate_limiter_sliding_window (key : string) :
  (∀ now tracker,
     Binary64.check_rate_limit key now tracker
     = Binary64.Allow_by_age key now tracker)
  ∧ (∀ tracker times,
       Binary64.entry key tracker = [] →
       length times ≤ RATE_LIMIT_MAX_REQUESTS →
       (Binary64.check_many key times tracker).1
       = replicate (length times) true)
  ∧ (∀ tracker times now,
       Binary64.entry key tracker = [] →
       length times = RATE_LIMIT_MAX_REQUESTS →
       Binary64.within_one_window (times ++ [now]) →
       let tracker' := (Binary64.check_many key times tracker).2 in
       tracker' !! key = Some times
       ∧ Binary64.check_rate_limit key now tracker' = (false, tracker'))
  ∧ (∀ tracker now,
       Binary64.all_expired now (Binary64.entry key tracker) →
       Binary64.check_rate_limit key now tracker
       = (true, <[key := [now]]> tracker)).
Proof.
  split; [| split; [| split]].
  - intros now tracker. apply binary64_by_age.
  - intros tracker times Hempty Hlen.
    apply binary64_many_allows. rewrite Hempty. cbn. lia.
  - intros tracker times now Hempty Hlen Hwin tracker'.
    assert (Hpairs : ∀ t u, t ∈ times ++ [now] → u ∈ times ++ [now] →
                            Binary64.in_window u t = true).
    { intros t u Ht Hu. unfold Binary64.within_one_window in Hwin.
      rewrite Forall_forall in Hwin.
      specialize (Hwin t Ht). rewrite Forall_forall in Hwin. by apply Hwin. }
    assert (Hkept : Binary64.entry key tracker' = times).
    { subst tracker'. rewrite binary64_many_retains.
      - by rewrite Hempty.
      - rewrite Hempty. cbn. lia.
      - intros t u Ht Hu. rewrite Hempty in Ht. cbn in Ht.
        apply Hpairs; apply elem_of_app; by left. }
    assert (Hsome : tracker' !! key = Some times).
    { unfold Binary64.entry in Hkept.
      destruct (tracker' !! key) as [l |]; cbn in Hkept.
      - by rewrite Hkept.
      - subst times. cbn in Hlen. discriminate Hlen. }
    split; [exact Hsome |].
    apply (binary64_denies key now tracker' times Hsome); [lia |].
    apply Forall_forall. intros t Ht.
    apply Hpairs; apply elem_of_app; [by left | right; apply list_elem_of_here].
  - intros tracker now. apply binary64_expired.
Qed.

(** Twenty requests one second apart from a fresh key, a twenty-first at
    second 59, and one at second 79 when the youngest stored timestamp is
    exactly a window old. *)
Lemma rate_limiter_sliding_window_witness :
  let times := Binary64.seconds 20 in
  let tracker' := (Binary64.check_many "peer" times ∅).2 in
  (Binary64.check_many "peer" times ∅).1 = replicate 20 true
  ∧ Binary64.check_rate_limit "peer" 59 tracker' = (false, tracker')
  ∧ Binary64.check_rate_limit "peer" 79 tracker'
    = (true, <["peer" := [79%float]]> tracker').
Proof.
  intros times tracker'.
  destruct (rate_limiter_sliding_window "peer") as (_ & Hallow & Hdeny & Hagain).
  split; [| split].
  - apply (Hallow ∅ times); [reflexivity | vm_compute; lia].
  - apply (Hdeny ∅ times 59%float); [reflexivity | reflexivity |].
    apply (bool_decide_unpack _). vm_compute. exact I.
  - apply (Hagain tracker' 79%float).
    apply (bool_decide_unpack _). vm_compute. exact I.
Defined.

(** C1 as stated fails at the boundary: with twenty timestamps exactly one
    window old the code prunes them all and lets the request in, while the
    stated algorithm, discarding only timestamps older than
    [now - WINDOW], keeps them and denies. *)
Lemma rate_limiter_boundary_counterexample :
  let tracker : gmap string (list float) :=
    {[ "peer" := replicate 20 0%float ]} in
  Binary64.check_rate_limit "peer" 60 tracker
  = (true, {[ "peer" := [60%float] ]})
  ∧ Binary64.Allow_as_stated "peer" 60 tracker = (false, tracker).
Proof. vm_compute. split; reflexivity. Qed.

(** The test is on the computed age: twenty timestamps at the float next
    above 1 are 60 - 2^-52 old at second 61, the subtraction rounds that
    to 60, and the request is let in; one spacing of the floats further
    from the edge, at the float next below 60, they are kept. *)
Remark rounding_at_the_edge :
  let stamps := replicate 20 (PrimFloat.next_up 1) in
  Binary64.check_rate_limit "peer" 61 {[ "peer" := stamps ]}
  = (true, {[ "peer" := [61%float] ]})
  ∧ Binary64.check_rate_limit "peer" (PrimFloat.next_down 60)
      {[ "peer" := replicate 20 0%float ]}
    = (false, {[ "peer" := replicate 20 0%float ]}).
Proof. vm_compute. split; reflexivity. Qed.

(** ** Admission control *)

Section AdmissionFacts.

Variable environ : gmap string string.
Variable json_loads : message → result pyval.

Lemma loop_body_clients ws raw now synth σ :
  connected_clients (loop_body environ json_loads ws raw now synth σ).1.1
  = connected_clients σ.
Proof.
  unfold loop_body.
  destruct (check_rate_limit _ _ _) as [allowed tracker].
  destruct allowed; cbn; [| done].
  destruct (parse_request _ _ _) as [[| text voice |] | e]; cbn; try done.
  by destruct (serve_request _ _ _ _).
Qed.

Lemma size_add (ws : websocket) (clients : gset websocket) :
  size ({[ ws ]} ∪ clients) ≤ S (size clients).
Proof.
  rewrite size_union_alt, size_singleton.
  assert (size (clients ∖ {[ ws ]}) ≤ size clients)
    by apply subseteq_size, subseteq_difference_l, reflexivity.
  lia.
Qed.

Lemma size_discard (ws : websocket) (clients : gset websocket) :
  size (clients ∖ {[ ws ]}) ≤ size clients.
Proof. apply subseteq_size, subseteq_difference_l. reflexivity. Qed.

Lemma size_discard_member (ws : websocket) (clients : gset websocket) :
  ws ∈ clients → S (size (clients ∖ {[ ws ]})) = size clients.
Proof.
  intros Hin.
  assert (Hsub : ({[ ws ]} : gset websocket) ⊆ clients).
  { intros x Hx. apply elem_of_singleton in Hx. by subst x. }
  pose proof (subseteq_size _ _ Hsub) as Hpos.
  rewrite size_difference by exact Hsub.
  rewrite size_singleton in *. lia.
Qed.

Lemma step_within_limit s ev :
  within_limit s → within_limit (step environ json_loads s ev).1.
Proof.
  unfold within_limit. intros Hs. destruct ev as [ws | ws raw now synth | ws | |]; cbn.
  - destruct (listening _); [| done].
    unfold accept_connection. destruct (decide _) as [Hfull | Hroom]; cbn; [done |].
    pose proof (size_add ws (connected_clients (shared s))). lia.
  - destruct (decide _) as [Hin | Hout]; [| done].
    pose proof (loop_body_clients ws raw now synth (shared s)) as Hsame.
    destruct (loop_body _ _ _ _ _ _ _) as [[σ effects] [e |]]; cbn in *.
    + rewrite Hsame.
      pose proof (size_discard ws (connected_clients (shared s))). lia.
    + by rewrite Hsame.
  - destruct (decide _) as [Hin | Hout]; [| done]. cbn.
    pose proof (size_discard ws (connected_clients (shared s))). lia.
  - destruct (main_phase s); [| done | done].
    by destruct (main_after_stop _).
  - by destruct (main_phase s).
Qed.

Lemma run_within_limit evs : ∀ s,
  within_limit s → within_limit (run environ json_loads s evs).1.
Proof.
  induction evs as [| ev rest IH]; intros s Hs; [done |].
  cbn. pose proof (step_within_limit s ev Hs) as Hstep.
  destruct (step _ _ s ev) as [s' out].
  specialize (IH s' Hstep).
  by destruct (run _ _ s' rest).
Qed.

End AdmissionFacts.

(** C2.  The registry never holds more than [MAX_CONNECTIONS] sessions in
    any reachable state of the server; with [MAX_CONNECTIONS] sessions
    registered, a connection attempt is closed with code 1013, "Maximum
    connections reached", and the registry is left as it is; and once any
    registered session has gone through its [finally] block, a new
    connection attempt is admitted and registered. *)
Theorem connection_limit (environ : gmap string string)
    (json_loads : message → result pyval) :
  (∀ s, reachable environ json_loads s →
        size (connected_clients (shared s)) ≤ MAX_CONNECTIONS)
  ∧ (∀ σ ws,
       size (connected_clients σ) = MAX_CONNECTIONS →
       accept_connection ws σ = (σ, [Close 1013 "Maximum connections reached"], false))
  ∧ (∀ σ ws ws',
       size (connected_clients σ) = MAX_CONNECTIONS →
       ws ∈ connected_clients σ →
       ∃ σ', accept_connection ws' (finally ws σ) = (σ', [], true)
             ∧ ws' ∈ connected_clients σ'
             ∧ size (connected_clients σ') ≤ MAX_CONNECTIONS).
Proof.
  split; [| split].
  - intros s [evs <-]. apply run_within_limit.
    unfold within_limit. cbn. rewrite size_empty. lia.
  - intros σ ws Hfull. unfold accept_connection.
    destruct (decide _) as [_ | Hroom]; [done | lia].
  - intros σ ws ws' Hfull Hin. unfold accept_connection.
    pose proof (size_discard_member ws (connected_clients σ) Hin) as Hless.
    destruct (decide _) as [Hstill | _]; cbn in *; [lia |].
    eexists. split; [reflexivity |]. cbn. split.
    + apply elem_of_union. left. by apply elem_of_singleton.
    + pose proof (size_add ws' (connected_clients σ ∖ {[ ws ]})). lia.
Qed.

(** Five registered sessions: a sixth is refused; after session 2 has
    closed, it is admitted. *)
Lemma connection_limit_witness :
  accept_connection (Sample.ws 9) Sample.full
    = (Sample.full, [Close 1013 "Maximum connections reached"], false)
  ∧ ∃ σ', accept_connection (Sample.ws 9) (finally (Sample.ws 2) Sample.full) = (σ', [], true)
          ∧ Sample.ws 9 ∈ connected_clients σ'
          ∧ size (connected_clients σ') ≤ MAX_CONNECTIONS.
Proof.
  destruct (connection_limit ∅ Sample.json_loads) as (_ & Hrefuse & Hagain).
  split.
  - apply Hrefuse. vm_compute. reflexivity.
  - apply Hagain.
    + vm_compute. reflexivity.
    + apply (bool_decide_unpack _). vm_compute. exact I.
Defined.

(** ** Streaming a synthesis *)

Section StreamFacts.

Implicit Types (cs : list chunk) (c : chunk).

Lemma forward_chunks_cons_audio c cs data :
  chunk_type c = "audio" → chunk_data c = Some data →
  forward_chunks (c :: cs)
  = (Send_chunk data :: (forward_chunks cs).1, (forward_chunks cs).2).
Proof.
  intros Ht Hd. cbn. rewrite bool_decide_eq_true_2 by done. rewrite Hd.
  by destruct (forward_chunks cs).
Qed.

Lemma forward_chunks_cons_missing c cs :
  chunk_type c = "audio" → chunk_data c = None →
  forward_chunks (c :: cs) = ([], Some "'data'").
Proof. intros Ht Hd. cbn. rewrite bool_decide_eq_true_2 by done. by rewrite Hd. Qed.

Lemma forward_chunks_cons_other c cs :
  chunk_type c ≠ "audio" → forward_chunks (c :: cs) = forward_chunks cs.
Proof. intros Ht. cbn. by rewrite bool_decide_eq_false_2. Qed.

(** Induction over a stream, by what the loop does with its head. *)
Lemma chunk_cases c :
  (chunk_type c ≠ "audio")
  ∨ (chunk_type c = "audio" ∧ chunk_data c = None)
  ∨ (chunk_type c = "audio" ∧ ∃ data, chunk_data c = Some data).
Proof.
  destruct (decide (chunk_type c = "audio")) as [Ht | Ht]; [| by left].
  right. destruct (chunk_data c) as [data |]; [right | left]; eauto.
Qed.

Lemma forward_chunks_only_sends cs :
  Forall (λ e, is_chunk e) (forward_chunks cs).1.
Proof.
  induction cs as [| c cs IH]; [constructor |].
  destruct (chunk_cases c) as [Ht | [[Ht Hd] | [Ht [data Hd]]]].
  - by rewrite forward_chunks_cons_other.
  - rewrite forward_chunks_cons_missing by done. constructor.
  - rewrite (forward_chunks_cons_audio c cs data) by done. by constructor.
Qed.



Lemma forward_chunks_well_formed cs :
  well_formed cs →
  forward_chunks cs = (Send_chunk <$> audio_payloads cs, None).
Proof.
  unfold audio_payloads, audio_only.
  induction 1 as [| c cs Hc _ IH]; [done |].
  destruct (chunk_cases c) as [Ht | [[Ht Hd] | [Ht [data Hd]]]].
  - by rewrite forward_chunks_cons_other, filter_cons_False.
  - destruct (Hc Ht) as [data Hd']. congruence.
  - rewrite (forward_chunks_cons_audio c cs data), filter_cons_True by done.
    rewrite IH. cbn. by rewrite Hd.
Qed.

Lemma filter_END_chunks (sent : list effect) :
  Forall (λ e, is_chunk e) sent → filter (λ e, is_END e) sent = [].
Proof.
  intros Hsent. apply filter_none.
  eapply Forall_impl; [exact Hsent |]. intros e Hc He. cbn in *. by destruct e.
Qed.

Lemma filter_error_chunks (sent : list effect) :
  Forall (λ e, is_chunk e) sent → filter (λ e, is_error e) sent = [].
Proof.
  intros Hsent. apply filter_none.
  eapply Forall_impl; [exact Hsent |]. intros e Hc He. cbn in *. by destruct e.
Qed.

(** On the wire the sentinel is a binary frame like any chunk: a chunk
    whose payload is the three bytes of the sentinel reads the same. *)
Remark wire_sentinel : wire (Send_chunk END) = wire Send_END.
Proof. reflexivity. Qed.

(** The shape of every dispatched response. *)
Lemma stream_tts_shape text voice synth :
  ∃ sent raised,
    Forall (λ e, is_chunk e) sent
    ∧ stream_tts text voice synth
      = Communicate text voice :: sent ++
          match raised with
          | None => [Send_END]
          | Some e => [Send_json (tts_error e); Send_END]
          end
    ∧ (is_Some (failure (synth text voice)) → is_Some raised)
    ∧ (well_formed (chunks (synth text voice)) →
       sent = Send_chunk <$> audio_payloads (chunks (synth text voice))
       ∧ raised = failure (synth text voice)).
Proof.
  unfold stream_tts.
  pose proof (forward_chunks_only_sends (chunks (synth text voice))) as Hsent.
  pose proof (forward_chunks_well_formed (chunks (synth text voice))) as Hwf.
  destruct (forward_chunks _) as [sent raised]. cbn in Hsent.
  exists sent, (match raised with Some e => Some e | None => failure (synth text voice) end).
  split; [done |]. split; [done |]. split.
  - intros Hfail. by destruct raised.
  - intros Hok. specialize (Hwf Hok). by injection Hwf as -> ->.
Qed.

End StreamFacts.

Section HandlerFacts.

Variable environ : gmap string string.
Variable json_loads : message → result pyval.

Lemma is_error_tts_error e : is_error (Send_json (tts_error e)) = true.
Proof.
  unfold is_error, tts_error. apply bool_decide_eq_true_2.
  rewrite lookup_singleton_eq. by eexists.
Qed.

(** What one iteration can send. *)
Lemma loop_body_effects ws raw now synth σ :
  let '(σ', effects, raised) := loop_body environ json_loads ws raw now synth σ in
  (raised = None ∧
    (effects = [Send_json rate_limit_error]
     ∨ effects = [Send_json (health_status (size (connected_clients σ)))]
     ∨ effects = [Send_json guidance_error]
     ∨ effects = [Send_json length_error]
     ∨ ∃ text voice voice',
         validate_voice environ voice = Return voice'
         ∧ effects = stream_tts text voice' synth))
  ∨ (is_Some raised ∧ effects = []).
Proof.
  unfold loop_body.
  destruct (check_rate_limit _ _ _) as [allowed tracker].
  destruct allowed; cbn; [| left; split; [done | by left]].
  destruct (parse_request _ _ _) as [[| text voice |] | e]; cbn.
  - left. split; [done |]. right. by left.
  - unfold serve_request.
    destruct (Py.len text) as [n | e]; cbn; [| right; split; [by eexists | done]].
    destruct (bool_decide _); cbn.
    { left. split; [done |]. do 3 right. by left. }
    destruct (validate_voice environ voice) as [voice' | e] eqn:Hvoice; cbn;
      [| right; split; [by eexists | done]].
    destruct (Py.slice_80 text) as [[] | e]; cbn;
      [| right; split; [by eexists | done]].
    left. split; [done |]. do 4 right. by exists text, voice, voice'.
  - left. split; [done |]. do 2 right. by left.
  - right. split; [by eexists | done].
Qed.

Lemma stream_tts_dispatch text voice synth :
  Exists (λ e, is_dispatch e) (stream_tts text voice synth).
Proof.
  destruct (stream_tts_shape text voice synth) as (sent & raised & _ & -> & _).
  by constructor.
Qed.

Lemma loop_body_dispatch ws raw now synth σ :
  Exists (λ e, is_dispatch e)
    (loop_body environ json_loads ws raw now synth σ).1.2 →
  ∃ text voice voice',
    validate_voice environ voice = Return voice'
    ∧ (loop_body environ json_loads ws raw now synth σ).1.2
      = stream_tts text voice' synth.
Proof.
  pose proof (loop_body_effects ws raw now synth σ) as Hcases.
  destruct (loop_body _ _ _ _ _ _ _) as [[σ' effects] raised]. cbn.
  intros Hex.
  destruct Hcases as [[_ [-> | [-> | [-> | [-> | Hstream]]]]] | [_ ->]];
    try (by apply Exists_cons in Hex as [Hex | Hex%Exists_nil]);
    [done | by apply Exists_nil in Hex].
Qed.

End HandlerFacts.

(** C3.  A dispatched synthesis request is answered by the audio chunks
    sent so far, then, if the collaborator failed, one error message, then
    the sentinel: the sequence ends with [Send_END], holds exactly one
    [Send_END], and on failure holds exactly one error message, placed
    after the chunks and before the sentinel.  Every iteration of the loop
    that dispatches to the collaborator answers in this way. *)
Theorem synthesis_ends_with_one_sentinel (environ : gmap string string)
    (json_loads : message → result pyval) :
  (∀ text voice synth,
     let effects := stream_tts text voice synth in
     last effects = Some Send_END
     ∧ length (filter (λ e, is_END e) effects) = 1
     ∧ (is_Some (failure (synth text voice)) →
        ∃ sent e,
          Forall (λ x, is_chunk x) sent
          ∧ effects = Communicate text voice :: sent
                        ++ [Send_json (tts_error e); Send_END]
          ∧ length (filter (λ x, is_error x) effects) = 1))
  ∧ (∀ ws raw now synth σ,
       let effects := (loop_body environ json_loads ws raw now synth σ).1.2 in
       Exists (λ e, is_dispatch e) effects →
       ∃ text voice, effects = stream_tts text voice synth).
Proof.
  split.
  - intros text voice synth effects. subst effects.
    destruct (stream_tts_shape text voice synth)
      as (sent & raised & Hsent & Heq & Hfail & _).
    rewrite Heq. split; [| split].
    + rewrite last_cons, last_app. by destruct raised.
    + rewrite filter_cons_False by (by intros ?).
      rewrite filter_app, filter_END_chunks by done.
      by destruct raised.
    + intros Hraise. destruct (Hfail Hraise) as [e ->].
      exists sent, e. split; [done |]. split; [done |].
      rewrite filter_cons_False by (by intros ?).
      rewrite filter_app, filter_error_chunks, app_nil_l by done.
      rewrite filter_cons_True by (by rewrite is_error_tts_error).
      by rewrite filter_cons_False by (by intros ?).
  - intros ws raw now synth σ effects Hex. subst effects.
    destruct (loop_body_dispatch environ json_loads ws raw now synth σ Hex)
      as (text & voice & voice' & _ & ->).
    by exists text, voice'.
Qed.

(** A collaborator that raises after one audio chunk: the chunk, the
    error, the sentinel. *)
Lemma synthesis_ends_with_one_sentinel_witness :
  ∃ sent e,
    Forall (λ x, is_chunk x) sent
    ∧ stream_tts (PyStr "hi") (PyStr "en-GB-RyanNeural") Sample.failing
      = Communicate (PyStr "hi") (PyStr "en-GB-RyanNeural") :: sent
          ++ [Send_json (tts_error e); Send_END]
    ∧ length (filter (λ x, is_error x)
                (stream_tts (PyStr "hi") (PyStr "en-GB-RyanNeural") Sample.failing))
      = 1.
Proof.
  destruct (synthesis_ends_with_one_sentinel ∅ Sample.json_loads) as [Hshape _].
  destruct (Hshape (PyStr "hi") (PyStr "en-GB-RyanNeural") Sample.failing)
    as (_ & _ & Hfail).
  apply Hfail. cbn. by eexists.
Defined.



(** ** Voice validation *)

Section VoiceFacts.

Variable environ : gmap string string.

Lemma validate_voice_returns voice voice' :
  validate_voice environ voice = Return voice' →
  ∃ s, voice' = PyStr s
       ∧ (s ∈ ALLOWED_VOICES ∨ s = DEFAULT_VOICE environ).
Proof.
  unfold validate_voice.
  destruct voice as [| b | n | bits | s | items | items]; cbn;
    try (intros [= <-]; eexists; split; [reflexivity | by right]);
    try discriminate.
  destruct (decide (s ∈ ALLOWED_VOICES)) as [Hin | Hout].
  - rewrite bool_decide_eq_false_2 by (by intros ?).
    intros [= <-]. exists s. by split; [| left].
  - rewrite bool_decide_eq_true_2 by done.
    intros [= <-]. eexists. by split; [| right].
Qed.

Lemma validate_voice_replaces voice :
  Py.hashable voice →
  (∀ s, voice = PyStr s → s ∉ ALLOWED_VOICES) →
  validate_voice environ voice = Return (PyStr (DEFAULT_VOICE environ)).
Proof.
  unfold validate_voice.
  destruct voice as [| b | n | bits | s | items | items]; cbn;
    intros Hhash Hout; try done.
  by rewrite bool_decide_eq_true_2 by (by apply Hout).
Qed.

Lemma validate_voice_default :
  validate_voice environ (PyStr (DEFAULT_VOICE environ))
  = Return (PyStr (DEFAULT_VOICE environ)).
Proof. unfold validate_voice. cbn. by destruct (bool_decide _). Qed.

Lemma stream_tts_forwards text voice synth t v :
  Communicate t v ∈ stream_tts text voice synth → t = text ∧ v = voice.
Proof.
  destruct (stream_tts_shape text voice synth)
    as (sent & raised & Hsent & -> & _).
  intros [[= -> ->] | [Hin | Hin]%elem_of_app]%elem_of_cons; [done | |].
  - rewrite Forall_forall in Hsent. by apply Hsent in Hin.
  - destruct raised; repeat (apply elem_of_cons in Hin as [[=] | Hin]);
      by apply elem_of_nil in Hin.
Qed.

End VoiceFacts.

(** C4 (amended for an overridden default).  The voice forwarded to the
    collaborator is a string that is a member of the allow-set or is the
    configured default voice, and so always a member when the default is
    one, as it is unless [EDGE_TTS_VOICE] overrides it.  A request whose
    voice is absent, or is a hashable value outside the allow-set, is
    served exactly as the same request naming the default voice: the
    replacement is silent. *)
Theorem forwarded_voice_allowed_or_default (environ : gmap string string)
    (json_loads : message → result pyval) :
  (∀ ws raw now synth σ text voice,
     Communicate text voice
       ∈ (loop_body environ json_loads ws raw now synth σ).1.2 →
     ∃ s, voice = PyStr s
          ∧ (s ∈ ALLOWED_VOICES ∨ s = DEFAULT_VOICE environ)
          ∧ (DEFAULT_VOICE environ ∈ ALLOWED_VOICES → s ∈ ALLOWED_VOICES))
  ∧ (environ !! "EDGE_TTS_VOICE" = None →
     DEFAULT_VOICE environ ∈ ALLOWED_VOICES)
  ∧ (∀ text voice synth,
       Py.hashable voice →
       (∀ s, voice = PyStr s → s ∉ ALLOWED_VOICES) →
       serve_request environ text voice synth
       = serve_request environ text (PyStr (DEFAULT_VOICE environ)) synth)
  ∧ (∀ raw items text,
       json_loads raw = Return (PyDict items) →
       is_health (items !! "command") = false →
       items !! "text" = Some text →
       items !! "voice" = None →
       parse_request environ json_loads raw
       = Return (Synthesize text (PyStr (DEFAULT_VOICE environ)))).
Proof.
  split; [| split; [| split]].
  - intros ws raw now synth σ text voice Hin.
    assert (Hex : Exists (λ e, is_dispatch e)
                    (loop_body environ json_loads ws raw now synth σ).1.2).
    { apply Exists_exists. by exists (Communicate text voice). }
    destruct (loop_body_dispatch environ json_loads ws raw now synth σ Hex)
      as (text' & voice0 & voice' & Hvalid & Heq).
    rewrite Heq in Hin.
    apply stream_tts_forwards in Hin as [-> ->].
    destruct (validate_voice_returns environ voice0 voice' Hvalid)
      as (s & -> & Hs).
    exists s. split; [done |]. split; [done |].
    intros Hdef. destruct Hs as [Hs | ->]; done.
  - intros Hunset. unfold DEFAULT_VOICE. rewrite Hunset. cbn.
    apply (bool_decide_unpack _). vm_compute. exact I.
  - intros text voice synth Hhash Hout. unfold serve_request.
    by rewrite (validate_voice_replaces environ voice Hhash Hout),
      validate_voice_default.
  - intros raw items text Hloads Hcommand Htext Hvoice.
    unfold parse_request, decode. rewrite Hloads. cbn.
    by rewrite Hcommand, Htext, Hvoice.
Qed.

(** The request [{"text": "hi", "voice": "nope"}] with the built-in
    default: the voice forwarded is the default, and the response is that
    of the same request naming the default. *)
Lemma forwarded_voice_allowed_or_default_witness :
  DEFAULT_VOICE ∅ ∈ ALLOWED_VOICES
  ∧ serve_request ∅ (PyStr "hi") (PyStr "nope") Sample.one_chunk
    = serve_request ∅ (PyStr "hi") (PyStr (DEFAULT_VOICE ∅)) Sample.one_chunk
  ∧ ∃ s, PyStr "en-GB-RyanNeural" = PyStr s
         ∧ (s ∈ ALLOWED_VOICES ∨ s = DEFAULT_VOICE ∅)
         ∧ (DEFAULT_VOICE ∅ ∈ ALLOWED_VOICES → s ∈ ALLOWED_VOICES).
Proof.
  destruct (forwarded_voice_allowed_or_default ∅ Sample.json_loads)
    as (Hfwd & Hdef & Hsilent & _).
  split; [| split].
  - apply Hdef. reflexivity.
  - apply Hsilent; [exact I |].
    intros s [= <-]. apply (bool_decide_unpack _). vm_compute. exact I.
  - apply (Hfwd (Sample.ws 0) (Text Sample.request_text) 0%Q Sample.one_chunk
             initial_state (PyStr "hi")).
    vm_compute. apply list_elem_of_here.
Defined.

(** C4 as stated fails when [EDGE_TTS_VOICE] names a voice outside the
    allow-set: the request's voice is replaced by that default, and the
    default is what the collaborator receives. *)
Lemma forwarded_voice_counterexample :
  loop_body Sample.environ_fr Sample.json_loads (Sample.ws 0)
    (Text Sample.request_text) 0 Sample.one_chunk Sample.one
  = ({| connected_clients := {[ Sample.ws 0 ]};
        rate_limit_tracker := {[ remote_address (Sample.ws 0) := [0%Q] ]} |},
     [Communicate (PyStr "hi") (PyStr "fr-FR-DeniseNeural");
      Send_chunk [x49; x44; x33]; Send_END],
     None)
  ∧ "fr-FR-DeniseNeural" ∉ ALLOWED_VOICES.
Proof.
  split; [vm_compute; reflexivity |].
  apply (bool_decide_unpack _). vm_compute. exact I.
Qed.

(** ** Decoding and validation *)

Section DecodeFacts.

Variable environ : gmap string string.
Variable json_loads : message → result pyval.

Lemma parse_request_not_dict raw v :
  json_loads raw = Return v → Py.is_dict v = false →
  parse_request environ json_loads raw = Raise AttributeError.
Proof.
  intros Hloads Hv. unfold parse_request, decode. rewrite Hloads.
  by destruct v.
Qed.

Lemma parse_request_uncaught raw e :
  json_loads raw = Raise e → caught e = false →
  parse_request environ json_loads raw = Raise e.
Proof.
  intros Hloads He. unfold parse_request, decode. rewrite Hloads. cbn.
  by rewrite He.
Qed.

Lemma parse_request_fallback raw e :
  json_loads raw = Raise e → caught e = true →
  parse_request environ json_loads raw
  = Return (plain_string_fallback environ raw).
Proof.
  intros Hloads He. unfold parse_request, decode. rewrite Hloads. cbn.
  by rewrite He.
Qed.

Lemma parse_request_health raw items :
  json_loads raw = Return (PyDict items) →
  items !! "command" = Some (PyStr "health") →
  parse_request environ json_loads raw = Return Health.
Proof.
  intros Hloads Hcommand. unfold parse_request, decode.
  rewrite Hloads. cbn. by rewrite Hcommand.
Qed.

(** [len] of a number, a boolean or [None] raises outside any [try]. *)
Lemma serve_request_unsized text voice synth :
  Py.len text = Raise TypeError →
  serve_request environ text voice synth = Raise TypeError.
Proof. intros Hlen. unfold serve_request. by rewrite Hlen. Qed.

(** An iteration the rate gate lets through, by what the parse step
    settles on. *)
Lemma loop_body_allowed ws raw now synth σ :
  (check_rate_limit (remote_address ws) now (rate_limit_tracker σ)).1 = true →
  loop_body environ json_loads ws raw now synth σ
  = let σ' := {| connected_clients := connected_clients σ;
                 rate_limit_tracker :=
                   (check_rate_limit (remote_address ws) now
                      (rate_limit_tracker σ)).2 |} in
    match parse_request environ json_loads raw with
    | Raise e => (σ', [], Some e)
    | Return Health =>
        (σ', [Send_json (health_status (size (connected_clients σ)))], None)
    | Return Unrecognised => (σ', [Send_json guidance_error], None)
    | Return (Synthesize text voice) =>
        match serve_request environ text voice synth with
        | Return effects => (σ', effects, None)
        | Raise e => (σ', [], Some e)
        end
    end.
Proof.
  unfold loop_body.
  destruct (check_rate_limit _ _ _) as [allowed tracker]. cbn.
  by intros ->.
Qed.

Lemma loop_body_denied ws raw now synth σ :
  (check_rate_limit (remote_address ws) now (rate_limit_tracker σ)).1 = false →
  loop_body environ json_loads ws raw now synth σ
  = ({| connected_clients := connected_clients σ;
        rate_limit_tracker :=
          (check_rate_limit (remote_address ws) now
             (rate_limit_tracker σ)).2 |},
     [Send_json rate_limit_error], None).
Proof.
  unfold loop_body.
  destruct (check_rate_limit _ _ _) as [allowed tracker]. cbn.
  by intros ->.
Qed.

End DecodeFacts.

(** C5, on the code.  A message on which [json.loads] raises
    [JSONDecodeError] goes to the plain string fallback, but one on which
    it raises anything the [except] clause does not name, such as
    [UnicodeDecodeError] on a binary frame, leaves the loop.  So does a
    message that decodes to anything but an object: [msg.get] raises
    [AttributeError], the [except] clause does not catch it, and the
    iteration that the rate gate let through sends nothing, leaves the
    loop with that exception and takes the session out of the registry. *)
Theorem non_object_json_ends_session (environ : gmap string string)
    (json_loads : message → result pyval) :
  (∀ raw,
     json_loads raw = Raise JSONDecodeError →
     parse_request environ json_loads raw
     = Return (plain_string_fallback environ raw))
  ∧ (∀ raw e,
       json_loads raw = Raise e →
       caught e = false →
       parse_request environ json_loads raw = Raise e)
  ∧ (∀ s ws raw now synth v,
       json_loads raw = Return v →
       Py.is_dict v = false →
       ws ∈ connected_clients (shared s) →
       (check_rate_limit (remote_address ws) now
          (rate_limit_tracker (shared s))).1 = true →
       parse_request environ json_loads raw = Raise AttributeError
       ∧ (step environ json_loads s (Ev_message ws raw now synth)).2
         = [Handler_raised ws AttributeError]
       ∧ ws ∉ connected_clients
               (shared (step environ json_loads s
                          (Ev_message ws raw now synth)).1)).
Proof.
  split; [| split].
  - intros raw Hloads. by apply (parse_request_fallback _ _ _ JSONDecodeError).
  - apply parse_request_uncaught.
  - intros s ws raw now synth v Hloads Hv Hin Hrate.
    pose proof (parse_request_not_dict environ json_loads raw v Hloads Hv)
      as Hparse.
    split; [exact Hparse |]. cbn.
    destruct (decide _) as [_ | Hout]; [| done].
    rewrite (loop_body_allowed environ json_loads ws raw now synth _ Hrate).
    cbv zeta. rewrite Hparse. cbn. split; [done |].
    intros [_ Hws]%elem_of_difference. apply Hws. by apply elem_of_singleton.
Qed.

(** The text frame [123] on a fresh session. *)
Lemma non_object_json_ends_session_witness :
  parse_request ∅ Sample.json_loads (Text "123") = Raise AttributeError
  ∧ (step ∅ Sample.json_loads {| shared := Sample.one; main_phase := Serving |}
       (Ev_message (Sample.ws 0) (Text "123") 0 Sample.one_chunk)).2
    = [Handler_raised (Sample.ws 0) AttributeError]
  ∧ Sample.ws 0
    ∉ connected_clients
        (shared (step ∅ Sample.json_loads
                   {| shared := Sample.one; main_phase := Serving |}
                   (Ev_message (Sample.ws 0) (Text "123") 0 Sample.one_chunk)).1).
Proof.
  destruct (non_object_json_ends_session ∅ Sample.json_loads) as (_ & _ & Hends).
  apply (Hends {| shared := Sample.one; main_phase := Serving |} (Sample.ws 0)
           (Text "123") 0%Q Sample.one_chunk (PyInt 123)).
  - reflexivity.
  - reflexivity.
  - apply (bool_decide_unpack _). vm_compute. exact I.
  - vm_compute. reflexivity.
Defined.

Section LengthGateFacts.

Variable environ : gmap string string.
Variable json_loads : message → result pyval.




End LengthGateFacts.



(** C8 (amended for the rate gate).  A message that the rate gate admits
    and whose command field equals ["health"] is answered by the status
    payload alone, with status ["ok"], the server version and the size of
    the registry as it is in that iteration; nothing else in the message is
    looked at, nothing is dispatched, and the loop goes on. *)
Theorem health_check_when_allowed (environ : gmap string string)
    (json_loads : message → result pyval) :
  ∀ ws raw now synth σ items,
    json_loads raw = Return (PyDict items) →
    items !! "command" = Some (PyStr "health") →
    (check_rate_limit (remote_address ws) now (rate_limit_tracker σ)).1 = true →
    loop_body environ json_loads ws raw now synth σ
    = ({| connected_clients := connected_clients σ;
          rate_limit_tracker :=
            (check_rate_limit (remote_address ws) now
               (rate_limit_tracker σ)).2 |},
       [Send_json
          (PyDict {[ "status" := PyStr "ok";
                     "version" := PyStr SERVER_VERSION;
                     "connections" :=
                       PyInt (Z.of_nat (size (connected_clients σ))) ]})],
       None).
Proof.
  intros ws raw now synth σ items Hloads Hcommand Hrate.
  rewrite (loop_body_allowed environ json_loads ws raw now synth σ Hrate).
  cbv zeta.
  by rewrite (parse_request_health environ json_loads raw items Hloads Hcommand).
Qed.

(** The health check on a registry of five. *)
Lemma health_check_when_allowed_witness :
  loop_body ∅ Sample.json_loads (Sample.ws 0) (Text Sample.health_text) 7
    Sample.one_chunk Sample.full
  = ({| connected_clients := connected_clients Sample.full;
        rate_limit_tracker :=
          (check_rate_limit (remote_address (Sample.ws 0)) 7
             (rate_limit_tracker Sample.full)).2 |},
     [Send_json
        (PyDict {[ "status" := PyStr "ok";
                   "version" := PyStr SERVER_VERSION;
                   "connections" :=
                     PyInt (Z.of_nat (size (connected_clients Sample.full))) ]})],
     None).
Proof.
  apply (health_check_when_allowed ∅ Sample.json_loads (Sample.ws 0)
           (Text Sample.health_text) 7%Q Sample.one_chunk Sample.full
           {[ "command" := PyStr "health" ]}).
  - reflexivity.
  - reflexivity.
  - vm_compute. reflexivity.
Defined.

(** C8 as stated fails once the budget is spent: the health check of a
    client with twenty requests in the window is answered with the rate
    limit error, not with the status payload. *)
Lemma health_check_rate_limited_counterexample :
  Sample.json_loads (Text Sample.health_text)
  = Return (PyDict {[ "command" := PyStr "health" ]})
  ∧ loop_body ∅ Sample.json_loads (Sample.ws 0) (Text Sample.health_text) 1
      Sample.one_chunk Sample.spent
    = (Sample.spent,
       [Send_json (PyDict {[ "error" := PyStr "Rate limit exceeded. Try again later." ]})],
       None).
Proof. split; vm_compute; reflexivity. Qed.

(** C9.  The rate gate runs first on every message, whatever it decodes
    to: the tracker after the iteration is the one [check_rate_limit]
    returns; a message denied by the gate, a health check included, is
    answered with the rate limit error alone; and an admitted health check
    leaves its timestamp at the end of the client's entry, where it counts
    against the budget like any other. *)
Theorem rate_gate_precedes_decoding (environ : gmap string string)
    (json_loads : message → result pyval) :
  (∀ ws raw now synth σ,
     rate_limit_tracker (loop_body environ json_loads ws raw now synth σ).1.1
     = (check_rate_limit (remote_address ws) now (rate_limit_tracker σ)).2)
  ∧ (∀ ws raw now synth σ,
       (check_rate_limit (remote_address ws) now (rate_limit_tracker σ)).1 = false →
       (loop_body environ json_loads ws raw now synth σ).1.2
       = [Send_json rate_limit_error]
       ∧ (loop_body environ json_loads ws raw now synth σ).2 = None)
  ∧ (∀ ws raw now synth σ items,
       json_loads raw = Return (PyDict items) →
       items !! "command" = Some (PyStr "health") →
       (check_rate_limit (remote_address ws) now (rate_limit_tracker σ)).1 = true →
       entry (remote_address ws)
         (rate_limit_tracker (loop_body environ json_loads ws raw now synth σ).1.1)
       = filter (λ t, now - t < RATE_LIMIT_WINDOW)%Q
           (entry (remote_address ws) (rate_limit_tracker σ)) ++ [now]).
Proof.
  assert (Htracker : ∀ ws raw now synth σ,
    rate_limit_tracker (loop_body environ json_loads ws raw now synth σ).1.1
    = (check_rate_limit (remote_address ws) now (rate_limit_tracker σ)).2).
  { intros ws raw now synth σ.
    destruct (check_rate_limit (remote_address ws) now (rate_limit_tracker σ)).1
      eqn:Hrate.
    - rewrite (loop_body_allowed environ json_loads ws raw now synth σ Hrate).
      cbv zeta.
      destruct (parse_request _ _ _) as [[| text voice |] | e]; cbn; try done.
      by destruct (serve_request _ _ _ _).
    - by rewrite (loop_body_denied environ json_loads ws raw now synth σ Hrate). }
  split; [exact Htracker | split].
  - intros ws raw now synth σ Hrate.
    by rewrite (loop_body_denied environ json_loads ws raw now synth σ Hrate).
  - intros ws raw now synth σ items _ _ Hrate. rewrite Htracker.
    revert Hrate. rewrite check_rate_limit_unfold. cbv zeta.
    destruct (decide _); [done |]. intros _. cbn. by rewrite entry_insert.
Qed.

(** Health checks only: the first on a fresh session leaves its timestamp,
    and one sent when the budget is spent gets the rate limit error. *)
Lemma rate_gate_precedes_decoding_witness :
  entry (remote_address (Sample.ws 0))
    (rate_limit_tracker
       (loop_body ∅ Sample.json_loads (Sample.ws 0) (Text Sample.health_text) 3
          Sample.one_chunk Sample.one).1.1)
  = filter (λ t, 3 - t < RATE_LIMIT_WINDOW)%Q
      (entry (remote_address (Sample.ws 0)) (rate_limit_tracker Sample.one)) ++ [3%Q]
  ∧ (loop_body ∅ Sample.json_loads (Sample.ws 0) (Text Sample.health_text) 1
       Sample.one_chunk Sample.spent).1.2
    = [Send_json rate_limit_error].
Proof.
  destruct (rate_gate_precedes_decoding ∅ Sample.json_loads)
    as (_ & Hdenied & Hallowed).
  split.
  - apply (Hallowed (Sample.ws 0) (Text Sample.health_text) 3%Q Sample.one_chunk
             Sample.one {[ "command" := PyStr "health" ]}).
    + reflexivity.
    + reflexivity.
    + vm_compute. reflexivity.
  - apply (Hdenied (Sample.ws 0) (Text Sample.health_text) 1%Q Sample.one_chunk
             Sample.spent).
    vm_compute. reflexivity.
Defined.

(** ** Shutdown *)

Section ShutdownFacts.

Variable environ : gmap string string.
Variable json_loads : message → result pyval.

Lemma close_requests_tasks (clients : list websocket) (rest : list action) :
  close_requests rest = [] →
  close_requests
    (((λ ws, Create_close_task ws 1001 "Server shutting down") <$> clients)
       ++ rest)
  = (λ ws, (ws, 1001%Z, "Server shutting down")) <$> clients.
Proof.
  intros Hrest. unfold close_requests in *.
  rewrite omap_app, Hrest, app_nil_r.
  induction clients as [| ws clients IH]; [done |].
  cbn. by rewrite IH.
Qed.

Lemma main_after_stop_nonempty (clients : list websocket) :
  clients ≠ [] →
  main_after_stop clients
  = (((λ ws, Create_close_task ws 1001 "Server shutting down") <$> clients)
       ++ [Await_wait (length clients) SHUTDOWN_TIMEOUT],
     Draining).
Proof.
  destruct clients as [| ws clients]; [done |]. intros _.
  unfold main_after_stop. by rewrite length_fmap.
Qed.

Lemma main_after_stop_requests (clients : list websocket) :
  close_requests (main_after_stop clients).1
  = (λ ws, (ws, 1001%Z, "Server shutting down")) <$> clients.
Proof.
  destruct (decide (clients = [])) as [-> | Hne]; [done |].
  rewrite main_after_stop_nonempty by done.
  by apply close_requests_tasks.
Qed.

Lemma main_after_stop_draining (clients : list websocket) :
  clients ≠ [] →
  (main_after_stop clients).2 = Draining
  ∧ last (main_after_stop clients).1
    = Some (Await_wait (length clients) SHUTDOWN_TIMEOUT)
  ∧ Forall (λ a, ¬ stops_listener a) (main_after_stop clients).1.
Proof.
  intros Hne. rewrite main_after_stop_nonempty by done. cbn [fst snd].
  split; [done |]. split; [by rewrite last_snoc |].
  apply Forall_app. split.
  - apply Forall_fmap, Forall_forall. intros ws _. by intros ?.
  - repeat constructor. by intros ?.
Qed.

End ShutdownFacts.

(** C7 (amended for the order of [main]).  On the shutdown trigger every
    session registered at that moment is sent one close request, code 1001
    "Server shutting down", before anything is awaited, and no other
    session is; with at least one such session the coordinator then waits
    for the closes, bounded by [SHUTDOWN_TIMEOUT], with the listener still
    open, so that a connection arriving during the wait is admitted as
    usual; when the wait is over, by completion or by timeout, it issues no
    further close request, stops the listener and waits, bounded by
    [SHUTDOWN_TIMEOUT] again, for it to close.  With no session registered
    at the trigger the listener is stopped at once.  Once the listener is
    stopped no connection is handled. *)
Theorem shutdown_drains_then_stops_listener (environ : gmap string string)
    (json_loads : message → result pyval) :
  (∀ s,
     main_phase s = Serving →
     let s' := (step environ json_loads s Ev_signal).1 in
     let out := (step environ json_loads s Ev_signal).2 in
     shared s' = shared s
     ∧ close_requests out
       = (λ ws, (ws, 1001%Z, "Server shutting down"))
           <$> elements (connected_clients (shared s))
     ∧ NoDup (close_requests out)
     ∧ (∀ ws, ws ∈ connected_clients (shared s)
              ↔ (ws, 1001%Z, "Server shutting down") ∈ close_requests out)
     ∧ (connected_clients (shared s) ≠ ∅ →
        main_phase s' = Draining
        ∧ last out
          = Some (Await_wait (size (connected_clients (shared s))) SHUTDOWN_TIMEOUT)
        ∧ Forall (λ a, ¬ stops_listener a) out)
     ∧ (connected_clients (shared s) = ∅ →
        main_phase s' = Stopped
        ∧ out = [Server_close; Await_wait_closed SHUTDOWN_TIMEOUT]))
  ∧ (∀ s,
       main_phase s = Draining →
       step environ json_loads s Ev_drain_over
       = ({| shared := shared s; main_phase := Stopped |},
          [Server_close; Await_wait_closed SHUTDOWN_TIMEOUT]))
  ∧ (∀ s ws,
       main_phase s = Draining →
       size (connected_clients (shared s)) < MAX_CONNECTIONS →
       ws ∈ connected_clients
              (shared (step environ json_loads s (Ev_connect ws)).1)
       ∧ (step environ json_loads s (Ev_connect ws)).2 = [])
  ∧ (∀ s ws,
       main_phase s = Stopped →
       step environ json_loads s (Ev_connect ws) = (s, [])).
Proof.
  split; [| split; [| split]].
  - intros s Hphase s' out. subst s' out. cbn. rewrite Hphase.
    pose proof (main_after_stop_requests
                  (elements (connected_clients (shared s)))) as Hreq.
    pose proof (main_after_stop_draining
                  (elements (connected_clients (shared s)))) as Hdrain.
    destruct (main_after_stop _) as [actions p] eqn:Hmain. cbn in *.
    split; [done |]. split; [exact Hreq |]. split; [| split; [| split]].
    + rewrite Hreq. apply NoDup_fmap_2; [| apply NoDup_elements].
      by intros ws1 ws2 [= ->].
    + intros ws. rewrite Hreq. rewrite <- elem_of_elements. split.
      * intros Hin. by apply (list_elem_of_fmap_2
          (λ ws, (ws, 1001%Z, "Server shutting down"))).
      * intros (ws' & [= ->] & Hin)%list_elem_of_fmap. exact Hin.
    + intros Hne. apply Hdrain. intros Helems.
      apply Hne. by apply elements_empty_inv, leibniz_equiv in Helems.
    + intros Hempty. rewrite Hempty, elements_empty in Hmain.
      by injection Hmain as <- <-.
  - intros s Hphase. cbn. by rewrite Hphase.
  - intros s ws Hphase Hroom. cbn. rewrite Hphase. cbn. unfold accept_connection.
    destruct (decide _) as [Hfull | _]; [lia |]. cbn. split; [| done].
    apply elem_of_union. left. by apply elem_of_singleton.
  - intros s ws Hphase. cbn. by rewrite Hphase.
Qed.

(** Two sessions, the signal, a third connection during the drain, the
    end of the wait, and a connection attempt after it. *)
Lemma shutdown_drains_then_stops_listener_witness :
  let s := {| shared := {| connected_clients := {[ Sample.ws 0; Sample.ws 1 ]};
                           rate_limit_tracker := ∅ |};
              main_phase := Serving |} in
  let s' := (step ∅ Sample.json_loads s Ev_signal).1 in
  (main_phase s' = Draining
   ∧ last (step ∅ Sample.json_loads s Ev_signal).2
     = Some (Await_wait (size (connected_clients (shared s))) SHUTDOWN_TIMEOUT)
   ∧ Forall (λ a, ¬ stops_listener a) (step ∅ Sample.json_loads s Ev_signal).2)
  ∧ Sample.ws 2
    ∈ connected_clients
        (shared (step ∅ Sample.json_loads s' (Ev_connect (Sample.ws 2))).1)
  ∧ step ∅ Sample.json_loads s' Ev_drain_over
    = ({| shared := shared s'; main_phase := Stopped |},
       [Server_close; Await_wait_closed SHUTDOWN_TIMEOUT])
  ∧ step ∅ Sample.json_loads {| shared := shared s'; main_phase := Stopped |}
      (Ev_connect (Sample.ws 3))
    = ({| shared := shared s'; main_phase := Stopped |}, []).
Proof.
  intros s s'.
  destruct (shutdown_drains_then_stops_listener ∅ Sample.json_loads)
    as (Hsignal & Hover & Hduring & Hafter).
  destruct (Hsignal s eq_refl) as (_ & _ & _ & _ & Hdrain & _).
  split; [| split; [| split]].
  - apply Hdrain. apply (bool_decide_unpack _). vm_compute. exact I.
  - apply (Hduring s' (Sample.ws 2)); [vm_compute; reflexivity | vm_compute; lia].
  - apply (Hover s'). vm_compute. reflexivity.
  - apply (Hafter {| shared := shared s'; main_phase := Stopped |} (Sample.ws 3)).
    reflexivity.
Defined.

(** C7 as stated fails on the listener: after the trigger, with one
    session draining, a new connection is still admitted and registered,
    and [server.close()] has not run. *)
Lemma listener_open_during_drain_counterexample :
  run ∅ Sample.json_loads initial_server
    [Ev_connect (Sample.ws 0); Ev_signal; Ev_connect (Sample.ws 1)]
  = ({| shared := {| connected_clients := {[ Sample.ws 0; Sample.ws 1 ]};
                     rate_limit_tracker := ∅ |};
        main_phase := Draining |},
     [Create_close_task (Sample.ws 0) 1001 "Server shutting down";
      Await_wait 1 SHUTDOWN_TIMEOUT]).
Proof. vm_compute. reflexivity. Qed.

(** * Further properties of the code *)

(** ** The sliding log *)

Section SlidingLogFacts.

Implicit Types (key : string) (now prev t : Q) (times stored : list Q).
Implicit Types (tracker : gmap string (list Q)).

Lemma check_rate_limit_entry key now tracker :
  entry key (check_rate_limit key now tracker).2
  = filter (λ t, now - t < RATE_LIMIT_WINDOW)%Q (entry key tracker)
      ++ (if (check_rate_limit key now tracker).1 then [now] else []).
Proof.
  rewrite check_rate_limit_unfold. cbv zeta.
  destruct (decide _); cbn; rewrite entry_insert; [by rewrite app_nil_r | done].
Qed.

Lemma filter_window_later prev now (l : list Q) :
  (prev <= now)%Q →
  filter (λ t, now - t < RATE_LIMIT_WINDOW)%Q
    (filter (λ t, prev - t < RATE_LIMIT_WINDOW)%Q l)
  = filter (λ t, now - t < RATE_LIMIT_WINDOW)%Q l.
Proof.
  intros Hle. rewrite list_filter_filter. apply list_filter_iff.
  intros t. split; [by intros [? _] |].
  intros Hnow. split; [done |]. lra.
Qed.


Lemma check_rate_limit_bounded key now tracker :
  length (entry key tracker) ≤ RATE_LIMIT_MAX_REQUESTS →
  length (entry key (check_rate_limit key now tracker).2)
  ≤ RATE_LIMIT_MAX_REQUESTS.
Proof.
  intros Hlen. rewrite check_rate_limit_unfold. cbv zeta.
  pose proof (length_filter (λ t, now - t < RATE_LIMIT_WINDOW)%Q
                (entry key tracker)) as Hkept.
  destruct (decide _); cbn; rewrite entry_insert; [lia |].
  rewrite length_app. cbn. lia.
Qed.



End SlidingLogFacts.





(** X2.  What a call leaves stored.  After [check_rate_limit] at [now],
    every timestamp stored for the key is less than [RATE_LIMIT_WINDOW]
    old at [now], and an entry that held at most
    [RATE_LIMIT_MAX_REQUESTS] timestamps still does. *)
Theorem stored_entry_recent_and_bounded (key : string) (now : Q)
    (tracker : gmap string (list Q)) :
  Forall (λ t, now - t < RATE_LIMIT_WINDOW)%Q
    (entry key (check_rate_limit key now tracker).2)
  ∧ (length (entry key tracker) ≤ RATE_LIMIT_MAX_REQUESTS →
     length (entry key (check_rate_limit key now tracker).2)
     ≤ RATE_LIMIT_MAX_REQUESTS).
Proof.
  split; [| apply check_rate_limit_bounded].
  rewrite check_rate_limit_entry. apply Forall_app. split.
  - apply Forall_forall. by intros t [Ht _]%list_elem_of_filter.
  - destruct (check_rate_limit key now tracker).1; [| constructor].
    constructor; [| constructor]. unfold RATE_LIMIT_WINDOW. lra.
Qed.

(** A spent entry with stale stamps, checked at second 61. *)
Lemma stored_entry_recent_and_bounded_witness :
  length (entry "peer"
            (check_rate_limit "peer" 61
               {[ "peer" := replicate 19 0%Q ++ [30%Q] ]}).2)
  ≤ RATE_LIMIT_MAX_REQUESTS.
Proof.
  apply (stored_entry_recent_and_bounded "peer" 61%Q
           {[ "peer" := replicate 19 0%Q ++ [30%Q] ]}).
  vm_compute. lia.
Defined.

Lemma check_rate_limit_other_keys_aux (key other : string) (now : Q)
    (tracker : gmap string (list Q)) :
  other ≠ key →
  (check_rate_limit key now tracker).2 !! other = tracker !! other.
Proof.
  intros Hne. rewrite check_rate_limit_unfold. cbv zeta.
  destruct (decide _); cbn; by rewrite lookup_insert_ne.
Qed.

(** X3.  A call for one key leaves every other key's entry as it was,
    whatever the decision: the stored lists of other clients are neither
    pruned nor extended. *)
Theorem check_rate_limit_other_keys (key other : string) (now : Q)
    (tracker : gmap string (list Q)) :
  other ≠ key →
  (check_rate_limit key now tracker).2 !! other = tracker !! other
  ∧ entry other (check_rate_limit key now tracker).2 = entry other tracker.
Proof.
  intros Hne. unfold entry.
  by rewrite check_rate_limit_other_keys_aux.
Qed.

Lemma check_rate_limit_other_keys_witness :
  (check_rate_limit "peer0" 5 {[ "peer1" := [1%Q; 2%Q] ]}).2 !! "peer1"
  = ({[ "peer1" := [1%Q; 2%Q] ]} : gmap string (list Q)) !! "peer1"
  ∧ entry "peer1" (check_rate_limit "peer0" 5 {[ "peer1" := [1%Q; 2%Q] ]}).2
    = entry "peer1" {[ "peer1" := [1%Q; 2%Q] ]}.
Proof. apply check_rate_limit_other_keys. discriminate. Defined.

(** X4.  A denied call leaves no trace.  If a call is denied at [now],
    any call at a later clock reading returns the same decision and the
    same tracker as if the denied call had never been made. *)
Theorem denied_call_leaves_no_trace (key : string) (now later : Q)
    (tracker : gmap string (list Q)) :
  (check_rate_limit key now tracker).1 = false →
  (now <= later)%Q →
  check_rate_limit key later (check_rate_limit key now tracker).2
  = check_rate_limit key later tracker.
Proof.
  intros Hdenied Hle.
  rewrite (check_rate_limit_unfold key later).
  rewrite (check_rate_limit_unfold key later tracker). cbv zeta.
  pose proof (check_rate_limit_entry key now tracker) as Hentry.
  rewrite Hdenied, app_nil_r in Hentry.
  rewrite Hentry, filter_window_later by done.
  assert (Hstored : (check_rate_limit key now tracker).2
                    = <[key := filter (λ t, now - t < RATE_LIMIT_WINDOW)%Q
                                 (entry key tracker)]> tracker).
  { revert Hdenied. rewrite check_rate_limit_unfold. cbv zeta.
    by destruct (decide _). }
  rewrite Hstored.
  destruct (decide _); by rewrite insert_insert_eq.
Qed.

(** Twenty stamps at second 0: the call at second 60 returns the same
    with or without the denied call at second 10. *)
Lemma denied_call_leaves_no_trace_witness :
  check_rate_limit "peer" 60
    (check_rate_limit "peer" 10 {[ "peer" := replicate 20 0%Q ]}).2
  = check_rate_limit "peer" 60 {[ "peer" := replicate 20 0%Q ]}.
Proof.
  apply denied_call_leaves_no_trace.
  - vm_compute. reflexivity.
  - apply (bool_decide_unpack _). vm_compute. exact I.
Defined.

(** X5.  The stored timestamps stay in chronological order: if the entry
    is sorted and no stored timestamp is later than [now], the entry after
    the call is sorted too. *)
Theorem stored_entry_stays_sorted (key : string) (now : Q)
    (tracker : gmap string (list Q)) :
  StronglySorted Qle (entry key tracker) →
  Forall (λ t, t <= now)%Q (entry key tracker) →
  StronglySorted Qle (entry key (check_rate_limit key now tracker).2)
  ∧ Forall (λ t, t <= now)%Q (entry key (check_rate_limit key now tracker).2).
Proof.
  intros Hsorted Hpast. rewrite check_rate_limit_entry.
  set (kept := filter _ _).
  assert (Hsub : kept ⊆ entry key tracker) by apply list_subseteq_filter.
  assert (Hkept_past : Forall (λ t, t <= now)%Q kept).
  { apply Forall_forall. intros t Ht. rewrite Forall_forall in Hpast.
    by apply Hpast, Hsub. }
  assert (Hkept_sorted : StronglySorted Qle kept).
  { subst kept. clear Hsub Hkept_past Hpast.
    induction Hsorted as [| t l _ IH Ht]; [constructor |].
    destruct (decide (now - t < RATE_LIMIT_WINDOW)%Q).
    - rewrite filter_cons_True by done. constructor; [done |].
      apply Forall_forall. intros u [_ Hu]%list_elem_of_filter.
      rewrite Forall_forall in Ht. by apply Ht.
    - by rewrite filter_cons_False. }
  destruct (check_rate_limit key now tracker).1.
  - split.
    + apply StronglySorted_app. split; [| split; [done | repeat constructor]].
      intros t u Ht ->%list_elem_of_singleton.
      rewrite Forall_forall in Hkept_past. by apply Hkept_past.
    + apply Forall_app. split; [done |].
      constructor; [apply Qle_refl | constructor].
  - by rewrite app_nil_r.
Qed.

Lemma stored_entry_stays_sorted_witness :
  StronglySorted Qle
    (entry "peer" (check_rate_limit "peer" 70 {[ "peer" := [5%Q; 20%Q; 20%Q] ]}).2)
  ∧ Forall (λ t, t <= 70)%Q
      (entry "peer" (check_rate_limit "peer" 70 {[ "peer" := [5%Q; 20%Q; 20%Q] ]}).2).
Proof.
  apply stored_entry_stays_sorted;
    apply (bool_decide_unpack _); vm_compute; exact I.
Defined.

(** ** The shared state over the life of the server *)

Section SharedStateFacts.

Variable environ : gmap string string.
Variable json_loads : message → result pyval.

Lemma loop_body_tracker ws raw now synth σ :
  rate_limit_tracker (loop_body environ json_loads ws raw now synth σ).1.1
  = (check_rate_limit (remote_address ws) now (rate_limit_tracker σ)).2.
Proof.
  destruct (check_rate_limit (remote_address ws) now (rate_limit_tracker σ)).1
    eqn:Hrate.
  - rewrite (loop_body_allowed environ json_loads ws raw now synth σ Hrate).
    cbv zeta.
    destruct (parse_request _ _ _) as [[| text voice |] | e]; cbn; try done.
    by destruct (serve_request _ _ _ _).
  - by rewrite (loop_body_denied environ json_loads ws raw now synth σ Hrate).
Qed.

Lemma check_rate_limit_keys key now (tracker : gmap string (list Q)) other :
  is_Some ((check_rate_limit key now tracker).2 !! other) →
  other = key ∨ is_Some (tracker !! other).
Proof.
  destruct (decide (other = key)) as [-> | Hne]; [by left |].
  rewrite check_rate_limit_other_keys_aux by done. by right.
Qed.

End SharedStateFacts.

Section InvariantFacts.

Variable environ : gmap string string.
Variable json_loads : message → result pyval.

Lemma finally_owned ws σ σ' :
  connected_clients σ' = connected_clients σ →
  (∀ key, is_Some (rate_limit_tracker σ' !! key) →
          key = remote_address ws ∨ is_Some (rate_limit_tracker σ !! key)) →
  entries_owned σ → entries_owned (finally ws σ').
Proof.
  intros Hclients Hkeys Howned key. cbn.
  destruct (decide (key = remote_address ws)) as [-> | Hne].
  { rewrite lookup_delete_eq. by intros [? [=]]. }
  rewrite lookup_delete_ne by done. intros Hsome.
  destruct (Hkeys key Hsome) as [-> | Hold]; [done |].
  destruct (Howned key Hold) as (ws' & Hin & Hkey).
  exists ws'. split; [| done]. rewrite Hclients.
  apply elem_of_difference. split; [done |].
  intros ->%elem_of_singleton. by apply Hne.
Qed.

Lemma finally_bounded ws σ : entries_bounded σ → entries_bounded (finally ws σ).
Proof.
  intros Hbounded key. specialize (Hbounded key). unfold entry in *. cbn.
  destruct (decide (key = remote_address ws)) as [-> | Hne].
  - rewrite lookup_delete_eq. cbn. lia.
  - by rewrite lookup_delete_ne.
Qed.

Lemma loop_body_owned ws raw now synth σ :
  ws ∈ connected_clients σ → entries_owned σ →
  entries_owned (loop_body environ json_loads ws raw now synth σ).1.1.
Proof.
  intros Hin Howned key.
  rewrite loop_body_clients, loop_body_tracker.
  intros [-> | Hold]%check_rate_limit_keys; [by exists ws |].
  by apply Howned.
Qed.

Lemma loop_body_bounded ws raw now synth σ :
  entries_bounded σ →
  entries_bounded (loop_body environ json_loads ws raw now synth σ).1.1.
Proof.
  intros Hbounded key. rewrite loop_body_tracker.
  destruct (decide (key = remote_address ws)) as [-> | Hne].
  - by apply check_rate_limit_bounded.
  - unfold entry. rewrite check_rate_limit_other_keys_aux by done.
    apply Hbounded.
Qed.

Lemma step_entries s ev :
  entries_owned (shared s) ∧ entries_bounded (shared s) →
  entries_owned (shared (step environ json_loads s ev).1)
  ∧ entries_bounded (shared (step environ json_loads s ev).1).
Proof.
  intros [Howned Hbounded].
  destruct ev as [ws | ws raw now synth | ws | |]; cbn.
  - destruct (listening _); [| done].
    unfold accept_connection. destruct (decide _); cbn; [done |].
    split; [| done]. intros key Hsome.
    destruct (Howned key Hsome) as (ws' & Hin' & Hkey).
    exists ws'. split; [| done]. apply elem_of_union. by right.
  - destruct (decide _) as [Hin | _]; [| done].
    pose proof (loop_body_owned ws raw now synth (shared s) Hin Howned) as Ho.
    pose proof (loop_body_bounded ws raw now synth (shared s) Hbounded) as Hb.
    pose proof (loop_body_clients environ json_loads ws raw now synth (shared s))
      as Hclients.
    pose proof (loop_body_tracker environ json_loads ws raw now synth (shared s))
      as Htracker.
    destruct (loop_body _ _ _ _ _ _ _) as [[σ effects] [e |]]; cbn in *;
      [| done].
    split; [| by apply finally_bounded].
    apply (finally_owned ws (shared s) σ); [done | | done].
    intros key. rewrite Htracker. apply check_rate_limit_keys.
  - destruct (decide _) as [Hin | _]; [| done]. cbn.
    split; [| by apply finally_bounded].
    apply (finally_owned ws (shared s) (shared s)); [done | | done].
    intros key Hsome. by right.
  - destruct (main_phase s); [| done | done].
    by destruct (main_after_stop _).
  - by destruct (main_phase s).
Qed.

Lemma run_entries evs : ∀ s,
  entries_owned (shared s) ∧ entries_bounded (shared s) →
  entries_owned (shared (run environ json_loads s evs).1)
  ∧ entries_bounded (shared (run environ json_loads s evs).1).
Proof.
  induction evs as [| ev rest IH]; intros s Hs; [done |].
  cbn. pose proof (step_entries s ev Hs) as Hstep.
  destruct (step _ _ s ev) as [s' out].
  specialize (IH s' Hstep).
  by destruct (run _ _ s' rest).
Qed.

Lemma size_list_to_set_le (l : list string) :
  size (list_to_set l : gset string) ≤ length l.
Proof.
  induction l as [| x l IH]; cbn; [by rewrite size_empty |].
  rewrite size_union_alt, size_singleton.
  assert (size (list_to_set l ∖ {[ x ]} : gset string)
          ≤ size (list_to_set l : gset string))
    by apply subseteq_size, subseteq_difference_l, reflexivity.
  lia.
Qed.

Lemma owned_tracker_size σ :
  entries_owned σ → size (rate_limit_tracker σ) ≤ size (connected_clients σ).
Proof.
  intros Howned. rewrite <- (size_dom (D:=gset string)).
  transitivity (size (list_to_set (remote_address <$> elements (connected_clients σ))
                      : gset string)).
  - apply subseteq_size. intros key Hkey%elem_of_dom.
    destruct (Howned key Hkey) as (ws & Hin & <-).
    apply elem_of_list_to_set, list_elem_of_fmap.
    exists ws. split; [done |]. by apply elem_of_elements.
  - etransitivity; [apply size_list_to_set_le |]. by rewrite length_fmap.
Qed.

End InvariantFacts.

(** X6.  The rate-limit tracker cannot grow without bound.  In every
    reachable state of the server each entry of [rate_limit_tracker] is
    keyed by the address of a session that is registered at that moment,
    holds at most [RATE_LIMIT_MAX_REQUESTS] timestamps, and the tracker has
    at most [MAX_CONNECTIONS] entries. *)
Theorem tracker_stays_small (environ : gmap string string)
    (json_loads : message → result pyval) (s : server) :
  reachable environ json_loads s →
  entries_owned (shared s)
  ∧ entries_bounded (shared s)
  ∧ size (rate_limit_tracker (shared s)) ≤ MAX_CONNECTIONS.
Proof.
  intros [evs <-].
  destruct (run_entries environ json_loads evs initial_server) as [Ho Hb].
  { split.
    - intros key. cbn. rewrite lookup_empty. by intros [? [=]].
    - intros key. unfold entry. cbn. rewrite lookup_empty. cbn. lia. }
  split; [done |]. split; [done |].
  etransitivity; [by apply owned_tracker_size |].
  apply run_within_limit. unfold within_limit. cbn. rewrite size_empty. lia.
Qed.

(** Two sessions, a request from each, and the first one gone. *)
Lemma tracker_stays_small_witness :
  let s := (run ∅ Sample.json_loads initial_server
              [Ev_connect (Sample.ws 0); Ev_connect (Sample.ws 1);
               Ev_message (Sample.ws 0) (Text Sample.health_text) 1 Sample.one_chunk;
               Ev_message (Sample.ws 1) (Text "hello") 2 Sample.one_chunk;
               Ev_closed (Sample.ws 0)]).1 in
  entries_owned (shared s)
  ∧ entries_bounded (shared s)
  ∧ size (rate_limit_tracker (shared s)) ≤ MAX_CONNECTIONS.
Proof.
  intros s. apply (tracker_stays_small ∅ Sample.json_loads).
  by eexists.
Defined.

(** X7.  Sessions are isolated from each other's messages.  Whatever one
    session sends, and even if handling it raises, every other websocket
    is registered afterwards exactly if it was before, and the rate entry
    of every other address is left as it was. *)
Theorem message_leaves_other_sessions (environ : gmap string string)
    (json_loads : message → result pyval) (s : server) (ws other : websocket)
    (raw : message) (now : Q) (synth : pyval → pyval → synthesis) :
  other ≠ ws →
  let s' := (step environ json_loads s (Ev_message ws raw now synth)).1 in
  (other ∈ connected_clients (shared s') ↔ other ∈ connected_clients (shared s))
  ∧ (remote_address other ≠ remote_address ws →
     rate_limit_tracker (shared s') !! remote_address other
     = rate_limit_tracker (shared s) !! remote_address other).
Proof.
  intros Hne s'. subst s'. cbn.
  destruct (decide _) as [Hin | _]; [| done].
  pose proof (loop_body_clients environ json_loads ws raw now synth (shared s))
    as Hclients.
  pose proof (loop_body_tracker environ json_loads ws raw now synth (shared s))
    as Htracker.
  destruct (loop_body _ _ _ _ _ _ _) as [[σ effects] [e |]]; cbn in *.
  - split.
    + rewrite Hclients, elem_of_difference, elem_of_singleton.
      split; [by intros [? _] | by intros ?].
    + intros Hkey. rewrite lookup_delete_ne, Htracker by done.
      by apply check_rate_limit_other_keys_aux.
  - split; [by rewrite Hclients |].
    intros Hkey. rewrite Htracker. by apply check_rate_limit_other_keys_aux.
Qed.

(** Session 0 sends the number 123 and is dropped; session 1 stays. *)
Lemma message_leaves_other_sessions_witness :
  let s := {| shared := {| connected_clients := {[ Sample.ws 0; Sample.ws 1 ]};
                           rate_limit_tracker :=
                             {[ remote_address (Sample.ws 1) := [1%Q] ]} |};
              main_phase := Serving |} in
  let s' := (step ∅ Sample.json_loads s
               (Ev_message (Sample.ws 0) (Text "123") 2 Sample.one_chunk)).1 in
  (Sample.ws 1 ∈ connected_clients (shared s')
   ↔ Sample.ws 1 ∈ connected_clients (shared s))
  ∧ (remote_address (Sample.ws 1) ≠ remote_address (Sample.ws 0) →
     rate_limit_tracker (shared s') !! remote_address (Sample.ws 1)
     = rate_limit_tracker (shared s) !! remote_address (Sample.ws 1)).
Proof.
  intros s.
  apply (message_leaves_other_sessions ∅ Sample.json_loads s (Sample.ws 0)
           (Sample.ws 1) (Text "123") 2%Q Sample.one_chunk).
  discriminate.
Defined.

(** X8.  The cleanup of the [finally] block.  Running it twice is the same
    as running it once; after it the session's address has no rate entry,
    so the next request from that address is allowed and starts a fresh
    entry; and it drops the entry even when another registered session has
    the same address. *)
Theorem finally_forgets_the_address (σ : state) (ws : websocket) :
  finally ws (finally ws σ) = finally ws σ
  ∧ (ws ∉ connected_clients (finally ws σ))
  ∧ (∀ now, check_rate_limit (remote_address ws) now
              (rate_limit_tracker (finally ws σ))
            = (true, <[(remote_address ws) := [now]]>
                       (rate_limit_tracker (finally ws σ))))
  ∧ (∀ other,
       other ≠ ws →
       other ∈ connected_clients σ →
       remote_address other = remote_address ws →
       other ∈ connected_clients (finally ws σ)
       ∧ entry (remote_address other) (rate_limit_tracker (finally ws σ)) = []).
Proof.
  split; [| split; [| split]].
  - unfold finally. cbn. f_equal.
    + apply difference_twice_L.
    + apply delete_delete_eq.
  - cbn. rewrite elem_of_difference, elem_of_singleton.
    intros [_ Hself]. by apply Hself.
  - intros now. apply check_rate_limit_expired.
    unfold entry. cbn. rewrite lookup_delete_eq. constructor.
  - intros other Hne Hin Hkey. split.
    + cbn. rewrite elem_of_difference, elem_of_singleton. by split.
    + unfold entry. cbn. by rewrite Hkey, lookup_delete_eq.
Qed.

(** Two registered sessions behind one address: when one is cleaned up the
    other stays registered and its spent budget is gone. *)
Lemma finally_forgets_the_address_witness :
  let a := {| ws_id := 1; remote_address := "gateway" |} in
  let b := {| ws_id := 2; remote_address := "gateway" |} in
  let σ := {| connected_clients := {[ a; b ]};
              rate_limit_tracker := {[ "gateway" := replicate 20 0%Q ]} |} in
  b ∈ connected_clients (finally a σ)
  ∧ entry (remote_address b) (rate_limit_tracker (finally a σ)) = [].
Proof.
  intros a b σ.
  destruct (finally_forgets_the_address σ a) as (_ & _ & _ & Hshared).
  apply (Hshared b).
  - discriminate.
  - apply (bool_decide_unpack _). vm_compute. exact I.
  - reflexivity.
Defined.

(** X9.  The count a health check reports.  In a reachable state, the
    health check of a registered session that the rate gate lets through
    reports a number of connections between 1 and [MAX_CONNECTIONS]. *)
Theorem health_count_in_range (environ : gmap string string)
    (json_loads : message → result pyval) (s : server) (ws : websocket)
    (raw : message) (now : Q) (synth : pyval → pyval → synthesis)
    (items : gmap string pyval) :
  reachable environ json_loads s →
  ws ∈ connected_clients (shared s) →
  json_loads raw = Return (PyDict items) →
  items !! "command" = Some (PyStr "health") →
  (check_rate_limit (remote_address ws) now
     (rate_limit_tracker (shared s))).1 = true →
  ∃ n, (step environ json_loads s (Ev_message ws raw now synth)).2
       = [On ws (Send_json (health_status n))]
       ∧ 1 ≤ n ≤ MAX_CONNECTIONS.
Proof.
  intros [evs <-] Hin Hloads Hcommand Hrate. cbn.
  destruct (decide _) as [_ | Hout]; [| done].
  rewrite (loop_body_allowed environ json_loads ws raw now synth _ Hrate).
  cbv zeta.
  rewrite (parse_request_health environ json_loads raw items Hloads Hcommand).
  cbn. eexists. split; [reflexivity |]. split.
  - pose proof (size_discard_member ws _ Hin). lia.
  - apply run_within_limit. unfold within_limit. cbn. rewrite size_empty. lia.
Qed.

Lemma health_count_in_range_witness :
  let s := (run ∅ Sample.json_loads initial_server
              [Ev_connect (Sample.ws 0); Ev_connect (Sample.ws 1)]).1 in
  ∃ n, (step ∅ Sample.json_loads s
          (Ev_message (Sample.ws 1) (Text Sample.health_text) 4 Sample.one_chunk)).2
       = [On (Sample.ws 1) (Send_json (health_status n))]
       ∧ 1 ≤ n ≤ MAX_CONNECTIONS.
Proof.
  intros s.
  apply (health_count_in_range ∅ Sample.json_loads s (Sample.ws 1)
           (Text Sample.health_text) 4%Q Sample.one_chunk
           {[ "command" := PyStr "health" ]}).
  - by eexists.
  - apply (bool_decide_unpack _). vm_compute. exact I.
  - reflexivity.
  - reflexivity.
  - vm_compute. reflexivity.
Defined.

(** ** One iteration of the loop *)

(** X10.  Every message is answered unless handling it raises.  An
    iteration that raises has sent nothing; one that does not has sent
    either a single JSON message or the response of a dispatched synthesis,
    so in either case its last effect is a JSON message or the sentinel. *)
Theorem iteration_answers_or_raises (environ : gmap string string)
    (json_loads : message → result pyval) (ws : websocket) (raw : message)
    (now : Q) (synth : pyval → pyval → synthesis) (σ : state) :
  let effects := (loop_body environ json_loads ws raw now synth σ).1.2 in
  match (loop_body environ json_loads ws raw now synth σ).2 with
  | Some _ => effects = []
  | None =>
      ((∃ payload, effects = [Send_json payload])
       ∨ (∃ text voice, effects = stream_tts text voice synth))
      ∧ ∃ e, last effects = Some e
             ∧ (e = Send_END ∨ ∃ payload, e = Send_json payload)
  end.
Proof.
  intros effects. subst effects.
  pose proof (loop_body_effects environ json_loads ws raw now synth σ) as Hcases.
  destruct (loop_body _ _ _ _ _ _ _) as [[σ' effects] raised]. cbn.
  destruct Hcases as [[-> Hsent] | [[e ->] ->]]; [| done].
  destruct Hsent as [-> | [-> | [-> | [-> | (text & voice & voice' & _ & ->)]]]];
    try (split; [left; by eexists | eexists; split; [reflexivity | right; by eexists]]).
  split; [right; by eexists _, _ |].
  exists Send_END. split; [| by left].
  destruct (stream_tts_shape text voice' synth) as (sent & r & _ & -> & _).
  rewrite last_cons, last_app. by destruct r.
Qed.

Section ParseFacts.

Variable environ : gmap string string.
Variable json_loads : message → result pyval.

Lemma parse_request_missing_text raw items :
  json_loads raw = Return (PyDict items) →
  is_health (items !! "command") = false →
  items !! "text" = None →
  parse_request environ json_loads raw
  = Return (plain_string_fallback environ raw).
Proof.
  intros Hloads Hcommand Htext. unfold parse_request, decode.
  rewrite Hloads. cbn. by rewrite Hcommand, Htext.
Qed.

Lemma parse_request_with_text raw items text :
  json_loads raw = Return (PyDict items) →
  is_health (items !! "command") = false →
  items !! "text" = Some text →
  parse_request environ json_loads raw
  = Return (Synthesize text
              (default (PyStr (DEFAULT_VOICE environ)) (items !! "voice"))).
Proof.
  intros Hloads Hcommand Htext. unfold parse_request, decode.
  rewrite Hloads. cbn. rewrite Hcommand, Htext. cbn.
  by destruct (items !! "voice").
Qed.

End ParseFacts.

(** X11.  An object without a ["text"] entry is read as plain text.  When
    a message decodes to an object that is no health check and has no
    ["text"], the raw message goes to the plain string fallback: a text
    frame is synthesised literally, trimmed, with the default voice (any
    ["voice"] entry of the object is ignored), and a binary frame gets the
    guidance error. *)
Theorem object_without_text_is_plain_text (environ : gmap string string)
    (json_loads : message → result pyval) (raw : message)
    (items : gmap string pyval) :
  json_loads raw = Return (PyDict items) →
  is_health (items !! "command") = false →
  items !! "text" = None →
  parse_request environ json_loads raw
  = match raw with
    | Text s =>
        if bool_decide (Py.strip s ≠ "") then
          Return (Synthesize (PyStr (Py.strip s)) (PyStr (DEFAULT_VOICE environ)))
        else Return Unrecognised
    | Binary _ => Return Unrecognised
    end.
Proof.
  intros Hloads Hcommand Htext.
  rewrite (parse_request_missing_text environ json_loads raw items) by done.
  destruct raw as [s | b]; cbn; [| done]. by destruct (bool_decide _).
Qed.

Lemma object_without_text_is_plain_text_witness :
  parse_request ∅ Sample2.json_loads (Text Sample2.voice_only_text)
  = Return (Synthesize (PyStr Sample2.voice_only_text) (PyStr "en-GB-RyanNeural")).
Proof.
  etransitivity.
  - apply (object_without_text_is_plain_text ∅ Sample2.json_loads
             (Text Sample2.voice_only_text)
             {[ "voice" := PyStr "en-US-GuyNeural" ]}); reflexivity.
  - vm_compute. reflexivity.
Defined.

(** X12.  Which messages end the session at the parse step.  Parsing
    raises exactly when [json.loads] raises an exception outside the
    [except] tuple, or returns a value that is not an object, in which
    case the exception is [AttributeError]; [JSONDecodeError] and
    [KeyError] never leave the parse step. *)
Theorem parse_request_raises_iff (environ : gmap string string)
    (json_loads : message → result pyval) (raw : message) (e : exn) :
  parse_request environ json_loads raw = Raise e
  ↔ (json_loads raw = Raise e ∧ caught e = false)
    ∨ (∃ v, json_loads raw = Return v ∧ Py.is_dict v = false
            ∧ e = AttributeError).
Proof.
  split.
  - unfold parse_request, decode.
    destruct (json_loads raw) as [v | e'] eqn:Hloads; cbn.
    + destruct v as [| b | n | bits | s | l | items]; cbn;
        try (intros [= <-]; right; by eexists).
      destruct (is_health _); [done |].
      destruct (items !! "text"); cbn; [| done].
      by destruct (items !! "voice").
    + destruct (caught e') eqn:Hcaught; [done |].
      intros [= <-]. by left.
  - intros [[Hloads Hcaught] | (v & Hloads & Hv & ->)].
    + by apply parse_request_uncaught.
    + by apply (parse_request_not_dict _ _ _ v).
Qed.

(** On the model, where slicing a dict raises [TypeError]. *)
Lemma serve_request_raises_model (environ : gmap string string)
    (text voice : pyval) (synth : pyval → pyval → synthesis) (e : exn) :
  serve_request environ text voice synth = Raise e
  ↔ e = TypeError
    ∧ (Py.len text = Raise TypeError
       ∨ ∃ n, Py.len text = Return n ∧ n ≤ MAX_TEXT_LENGTH
              ∧ (Py.hashable voice = false ∨ Py.is_dict text = true)).
Proof.
  unfold serve_request, validate_voice. split.
  - intros Hraise.
    destruct (Py.len text) as [n | e'] eqn:Hlen; cbn in Hraise.
    2: { assert (e' = TypeError) as ->
           by (destruct text; cbn in Hlen; congruence).
         injection Hraise as <-. split; [done | by left]. }
    case_bool_decide as Hn; [done |].
    destruct (Py.not_in_allowed voice) as [outside | e'] eqn:Hvoice;
      cbn in Hraise.
    2: { assert (Py.hashable voice = false ∧ e' = TypeError) as [Hhash ->]
           by (destruct voice; cbn in Hvoice;
               first [done | by injection Hvoice as <-]).
         injection Hraise as <-. split; [done |]. right.
         exists n. split; [done |]. split; [lia | by left]. }
    destruct (Py.slice_80 text) as [[] | e'] eqn:Hslice; cbn in Hraise;
      [done |].
    assert (Py.is_dict text = true ∧ e' = TypeError) as [Hdict ->]
      by (destruct text; cbn in Hlen, Hslice;
          first [done | by injection Hslice as <-]).
    injection Hraise as <-. split; [done |]. right.
    exists n. split; [done |]. split; [lia | by right].
  - intros [-> [Hlen | (n & Hlen & Hle & Hcase)]].
    + by rewrite Hlen.
    + rewrite Hlen. cbn. rewrite bool_decide_eq_false_2 by lia.
      destruct Hcase as [Hvoice | Htext].
      * by destruct voice.
      * destruct text; try done.
        by destruct voice.
Qed.

(** X13.  Which requests end the session after the parse step.  Serving a
    parsed request raises exactly when the text has no length (a number, a
    boolean or null), or, the text being within the limit, when the voice
    is unhashable (an array or an object) or the text is an object.  In
    the first two cases the exception is [TypeError]; for a text that is an
    object with a hashable voice the theorem says only that [text[:80]]
    raises, since the class differs between Python versions.  A string
    text with a string voice never raises. *)
Theorem serve_request_raises_iff (environ : gmap string string)
    (text voice : pyval) (synth : pyval → pyval → synthesis) :
  ((∃ e, serve_request environ text voice synth = Raise e)
   ↔ Py.len text = Raise TypeError
     ∨ ∃ n, Py.len text = Return n ∧ n ≤ MAX_TEXT_LENGTH
            ∧ (Py.hashable voice = false ∨ Py.is_dict text = true))
  ∧ (Py.len text = Raise TypeError
     ∨ (∃ n, Py.len text = Return n ∧ n ≤ MAX_TEXT_LENGTH
             ∧ Py.hashable voice = false) →
     serve_request environ text voice synth = Raise TypeError)
  ∧ (∀ s v, text = PyStr s → voice = PyStr v →
            ∃ effects, serve_request environ text voice synth = Return effects).
Proof.
  split; [| split].
  - split.
    + intros [e He].
      by apply (serve_request_raises_model environ text voice synth e) in He
        as [_ Hcase].
    + intros Hcase. exists TypeError.
      by apply serve_request_raises_model.
  - intros Hcase. apply serve_request_raises_model. split; [done |].
    destruct Hcase as [Hlen | (n & Hlen & Hle & Hhash)]; [by left |].
    right. exists n. by repeat split; [| | left].
  - intros s v -> ->.
    destruct (serve_request environ (PyStr s) (PyStr v) synth) as [effects | e]
      eqn:Hserve; [by eexists |].
    apply serve_request_raises_model in Hserve
      as [_ [Hlen | (n & _ & _ & [Hhash | Hdict])]]; done.
Qed.

(** A text that is a number, and a voice that is an array. *)
Lemma serve_request_raises_iff_witness :
  serve_request ∅ (PyInt 123) PyNone Sample.one_chunk = Raise TypeError
  ∧ serve_request ∅ (PyStr "hi") (PyList []) Sample.one_chunk = Raise TypeError.
Proof.
  split.
  - destruct (serve_request_raises_iff ∅ (PyInt 123) PyNone Sample.one_chunk)
      as (_ & Hraise & _).
    apply Hraise. by left.
  - destruct (serve_request_raises_iff ∅ (PyStr "hi") (PyList []) Sample.one_chunk)
      as (_ & Hraise & _).
    apply Hraise. right. exists 2. repeat split. vm_compute. lia.
Defined.

Section VoiceKeptFacts.

Variable environ : gmap string string.

Lemma validate_voice_keeps (s : string) :
  s ∈ ALLOWED_VOICES → validate_voice environ (PyStr s) = Return (PyStr s).
Proof.
  intros Hin. unfold validate_voice. cbn.
  by rewrite bool_decide_eq_false_2 by (by intros ?).
Qed.

End VoiceKeptFacts.

(** X14.  An allowed voice is forwarded unchanged.  A request whose text
    is a string within the length limit and whose voice is a member of the
    allow-set is dispatched to the collaborator with exactly that text and
    that voice, whatever the default voice is. *)
Theorem allowed_voice_is_forwarded (environ : gmap string string)
    (text voice : string) (synth : pyval → pyval → synthesis) :
  String.length text ≤ MAX_TEXT_LENGTH →
  voice ∈ ALLOWED_VOICES →
  serve_request environ (PyStr text) (PyStr voice) synth
  = Return (stream_tts (PyStr text) (PyStr voice) synth)
  ∧ head (stream_tts (PyStr text) (PyStr voice) synth)
    = Some (Communicate (PyStr text) (PyStr voice)).
Proof.
  intros Hlen Hin. split.
  - unfold serve_request. cbn [Py.len mbind result_bind].
    rewrite (bool_decide_eq_false_2 (MAX_TEXT_LENGTH < String.length text))
      by lia.
    by rewrite validate_voice_keeps.
  - by destruct (stream_tts_shape (PyStr text) (PyStr voice) synth)
      as (sent & raised & _ & -> & _).
Qed.

(** An allowed voice with the default overridden by another voice. *)
Lemma allowed_voice_is_forwarded_witness :
  serve_request Sample.environ_fr (PyStr "hi") (PyStr "en-US-GuyNeural")
    Sample.one_chunk
  = Return (stream_tts (PyStr "hi") (PyStr "en-US-GuyNeural") Sample.one_chunk)
  ∧ head (stream_tts (PyStr "hi") (PyStr "en-US-GuyNeural") Sample.one_chunk)
    = Some (Communicate (PyStr "hi") (PyStr "en-US-GuyNeural")).
Proof.
  apply allowed_voice_is_forwarded.
  - vm_compute. lia.
  - apply (bool_decide_unpack _). vm_compute. exact I.
Defined.

(** ** The response to a dispatched request *)

Section ResponseFacts.

Lemma audio_payloads_length (cs : list chunk) :
  well_formed cs → length (audio_payloads cs) = length (audio_only cs).
Proof.
  unfold audio_payloads, audio_only.
  induction 1 as [| c cs Hc _ IH]; [done |].
  destruct (decide (chunk_type c = "audio")) as [Ht | Ht].
  - rewrite filter_cons_True by done. cbn.
    destruct (Hc Ht) as [data ->]. cbn. by rewrite IH.
  - by rewrite filter_cons_False.
Qed.

Lemma audio_payloads_app (before after : list chunk) :
  audio_payloads (before ++ after)
  = audio_payloads before ++ audio_payloads after.
Proof. unfold audio_payloads, audio_only. by rewrite filter_app, omap_app. Qed.

Lemma forward_chunks_missing_data (before after : list chunk) (c : chunk) :
  well_formed before →
  chunk_type c = "audio" → chunk_data c = None →
  forward_chunks (before ++ c :: after)
  = (Send_chunk <$> audio_payloads before, Some "'data'").
Proof.
  intros Hbefore Ht Hd.
  induction Hbefore as [| b before Hb _ IH]; cbn [app].
  { by rewrite forward_chunks_cons_missing. }
  destruct (chunk_cases b) as [Hbt | [[Hbt Hbd] | [Hbt [data Hbd]]]].
  - rewrite forward_chunks_cons_other, IH by done.
    unfold audio_payloads, audio_only. by rewrite filter_cons_False.
  - destruct (Hb Hbt) as [data Hdata]. congruence.
  - rewrite (forward_chunks_cons_audio b _ data), IH by done. cbn [fst snd].
    unfold audio_payloads, audio_only.
    rewrite filter_cons_True by done. cbn. by rewrite Hbd.
Qed.

End ResponseFacts.

(** X15.  The response to a well-formed stream, exactly.  When every
    audio chunk carries its data, the response is one binary message per
    audio chunk, with that chunk's payload and in the order produced,
    followed by the sentinel if the collaborator finished, or by the error
    "TTS failed: " with the text of the exception and then the sentinel if
    it raised; a stream that finished yields no error message. *)
Theorem well_formed_stream_response (text voice : pyval)
    (synth : pyval → pyval → synthesis) :
  well_formed (chunks (synth text voice)) →
  stream_tts text voice synth
  = Communicate text voice
      :: (Send_chunk <$> audio_payloads (chunks (synth text voice)))
      ++ match failure (synth text voice) with
         | None => [Send_END]
         | Some e =>
             [Send_json (PyDict {[ "error" := PyStr ("TTS failed: " +:+ e) ]});
              Send_END]
         end
  ∧ length (audio_payloads (chunks (synth text voice)))
    = length (audio_only (chunks (synth text voice)))
  ∧ (failure (synth text voice) = None →
     filter (λ e, is_error e) (stream_tts text voice synth) = []).
Proof.
  intros Hwf.
  assert (Heq : stream_tts text voice synth
    = Communicate text voice
        :: (Send_chunk <$> audio_payloads (chunks (synth text voice)))
        ++ match failure (synth text voice) with
           | None => [Send_END]
           | Some e => [Send_json (tts_error e); Send_END]
           end).
  { unfold stream_tts. by rewrite forward_chunks_well_formed. }
  split; [exact Heq |]. split; [by apply audio_payloads_length |].
  intros Hok. rewrite Heq, Hok.
  rewrite filter_cons_False by (by intros ?).
  rewrite filter_app, filter_error_chunks.
  - by rewrite filter_cons_False by (by intros ?).
  - apply Forall_fmap, Forall_forall. by intros.
Qed.

Lemma well_formed_stream_response_witness :
  stream_tts (PyStr "hi") (PyStr "en-GB-RyanNeural") Sample.failing
  = [Communicate (PyStr "hi") (PyStr "en-GB-RyanNeural");
     Send_chunk [x49; x44; x33];
     Send_json (PyDict {[ "error" := PyStr "TTS failed: No audio was received" ]});
     Send_END].
Proof.
  destruct (well_formed_stream_response (PyStr "hi") (PyStr "en-GB-RyanNeural")
              Sample.failing) as [Heq _].
  - apply (bool_decide_unpack _). vm_compute. exact I.
  - exact Heq.
Defined.

(** X16.  An audio chunk without data cuts the response short.  If the
    stream is well formed up to an audio chunk that lacks its ["data"],
    the payloads before it are sent, then the error "TTS failed: 'data'"
    and the sentinel; nothing of the rest of the stream is sent and a later
    failure of the collaborator is not reported. *)
Theorem chunk_without_data_ends_response (text voice : pyval)
    (synth : pyval → pyval → synthesis) (before after : list chunk)
    (c : chunk) :
  chunks (synth text voice) = before ++ c :: after →
  well_formed before →
  chunk_type c = "audio" →
  chunk_data c = None →
  stream_tts text voice synth
  = Communicate text voice
      :: (Send_chunk <$> audio_payloads before)
      ++ [Send_json (PyDict {[ "error" := PyStr "TTS failed: 'data'" ]});
          Send_END].
Proof.
  intros Hchunks Hbefore Ht Hd. unfold stream_tts.
  by rewrite Hchunks, (forward_chunks_missing_data before after c).
Qed.

Lemma chunk_without_data_ends_response_witness :
  stream_tts PyNone PyNone
    (λ _ _, {| chunks := Sample2.broken_chunks; failure := Some "late" |})
  = [Communicate PyNone PyNone;
     Send_chunk [x49; x44; x33];
     Send_json (PyDict {[ "error" := PyStr "TTS failed: 'data'" ]});
     Send_END].
Proof.
  apply (chunk_without_data_ends_response PyNone PyNone
           (λ _ _, {| chunks := Sample2.broken_chunks; failure := Some "late" |})
           [ {| chunk_type := "audio"; chunk_data := Some [x49; x44; x33] |} ]
           [ {| chunk_type := "audio"; chunk_data := Some [x00] |} ]
           {| chunk_type := "audio"; chunk_data := None |}).
  - reflexivity.
  - apply (bool_decide_unpack _). vm_compute. exact I.
  - reflexivity.
  - reflexivity.
Defined.

(** ** The shutdown over whole runs *)

Section RunFacts.

Variable environ : gmap string string.
Variable json_loads : message → result pyval.

#[local] Arguments close_requests : simpl never.

(** The actions of [main] among the output: none come from a handler. *)
Lemma handler_output_no_main ws effects (tail : list action) :
  close_requests ((On ws <$> effects) ++ tail) = close_requests tail
  ∧ filter (λ a, stops_listener a) ((On ws <$> effects) ++ tail)
    = filter (λ a, stops_listener a) tail.
Proof.
  unfold close_requests. rewrite omap_app, filter_app.
  assert (omap (λ a, match a with
                     | Create_close_task ws' code reason => Some (ws', code, reason)
                     | _ => None
                     end) (On ws <$> effects) = []) as ->
    by (induction effects; [done | by cbn]).
  assert (filter (λ a, stops_listener a) (On ws <$> effects) = []) as ->.
  { apply filter_none, Forall_fmap, Forall_forall. by intros eff _ ?. }
  done.
Qed.

Lemma step_session_quiet s ev :
  ev ≠ Ev_signal → ev ≠ Ev_drain_over →
  quiet (step environ json_loads s ev).2.
Proof.
  intros Hsignal Hdrain. unfold quiet.
  destruct ev as [ws | ws raw now synth | ws | |]; cbn; try done.
  - destruct (listening _); [| done].
    destruct (accept_connection ws (shared s)) as [[σ effects] ok]. cbn.
    destruct (handler_output_no_main ws effects []) as [H1 H2].
    by rewrite app_nil_r in H1, H2.
  - destruct (decide _) as [Hin | Hout]; [| done].
    destruct (loop_body _ _ _ _ _ _ _) as [[σ effects] [e |]]; cbn.
    + destruct (handler_output_no_main ws effects [Handler_raised ws e])
        as [-> ->]. split; [done |].
      by rewrite filter_cons_False by (by intros ?).
    + destruct (handler_output_no_main ws effects []) as [H1 H2].
      by rewrite app_nil_r in H1, H2.
  - by destruct (decide _) as [Hin | Hout].
Qed.

Lemma step_phase_session s ev :
  ev ≠ Ev_signal → ev ≠ Ev_drain_over →
  main_phase (step environ json_loads s ev).1 = main_phase s.
Proof.
  intros Hsignal Hdrain.
  destruct ev as [ws | ws raw now synth | ws | |]; cbn; try done.
  - destruct (listening _); [| done].
    by destruct (accept_connection ws (shared s)) as [[σ effects] ok].
  - destruct (decide _) as [Hin | Hout]; [| done].
    by destruct (loop_body _ _ _ _ _ _ _) as [[σ effects] [e |]].
  - by destruct (decide _) as [Hin | Hout].
Qed.

End RunFacts.

Section RunMainFacts.

Variable environ : gmap string string.
Variable json_loads : message → result pyval.

#[local] Arguments close_requests : simpl never.

Lemma close_requests_app (out1 out2 : list action) :
  close_requests (out1 ++ out2) = close_requests out1 ++ close_requests out2.
Proof. unfold close_requests. apply omap_app. Qed.

Lemma run_cons s ev rest :
  run environ json_loads s (ev :: rest)
  = ((run environ json_loads (step environ json_loads s ev).1 rest).1,
     (step environ json_loads s ev).2
       ++ (run environ json_loads (step environ json_loads s ev).1 rest).2).
Proof.
  cbn [run]. destruct (step _ _ s ev) as [s' out]. cbn [fst snd].
  destruct (run _ _ s' rest) as [s'' out']. reflexivity.
Qed.

Lemma main_budget_quiet_app p out1 out2 :
  quiet out1 → main_budget p out2 → main_budget p (out1 ++ out2).
Proof.
  intros [Hreq Hstop].
  destruct p; unfold main_budget, quiet;
    rewrite close_requests_app, filter_app, Hreq, Hstop; by cbn.
Qed.

Lemma step_signal s :
  step environ json_loads s Ev_signal
  = match main_phase s with
    | Serving =>
        ({| shared := shared s;
            main_phase :=
              (main_after_stop (elements (connected_clients (shared s)))).2 |},
         (main_after_stop (elements (connected_clients (shared s)))).1)
    | _ => (s, [])
    end.
Proof.
  cbn [step]. destruct (main_phase s); [| done | done].
  by destruct (main_after_stop _).
Qed.

Lemma step_drain_over s :
  step environ json_loads s Ev_drain_over
  = match main_phase s with
    | Draining =>
        ({| shared := shared s; main_phase := Stopped |}, main_after_drain)
    | _ => (s, [])
    end.
Proof. reflexivity. Qed.

Lemma stop_then_quiet (out : list action) :
  quiet out →
  close_requests (main_after_drain ++ out) = []
  ∧ length (filter (λ a, stops_listener a) (main_after_drain ++ out)) = 1.
Proof.
  intros [Hreq Hstop].
  rewrite close_requests_app, filter_app, Hreq, Hstop. by split.
Qed.

Lemma run_main_budget evs : ∀ s,
  main_budget (main_phase s) (run environ json_loads s evs).2.
Proof.
  induction evs as [| ev rest IH]; intros s.
  { by destruct (main_phase s); repeat constructor. }
  rewrite run_cons. cbn [snd].
  assert (Hsession : ev ≠ Ev_signal → ev ≠ Ev_drain_over →
    main_budget (main_phase s)
      ((step environ json_loads s ev).2
         ++ (run environ json_loads (step environ json_loads s ev).1 rest).2)).
  { intros Hsignal Hdrain.
    apply main_budget_quiet_app; [by apply step_session_quiet |].
    rewrite <- (step_phase_session environ json_loads s ev) by done.
    apply IH. }
  destruct ev as [ws | ws raw now synth | ws | |];
    try (by apply Hsession); clear Hsession.
  - rewrite step_signal.
    destruct (main_phase s) eqn:Hphase; cbn [fst snd app];
      try (specialize (IH s); by rewrite Hphase in IH).
    unfold main_budget.
    pose proof (main_after_stop_requests
                  (elements (connected_clients (shared s)))) as Hreq.
    pose proof (main_after_stop_draining
                  (elements (connected_clients (shared s)))) as Hdrain.
    destruct (decide (elements (connected_clients (shared s)) = []))
      as [Hnone | Hsome].
    + rewrite Hnone.
      specialize (IH {| shared := shared s; main_phase := Stopped |}).
      destruct (stop_then_quiet _ IH) as [Hr Hs].
      change (main_after_stop []).1 with main_after_drain.
      change (main_after_stop []).2 with Stopped.
      rewrite Hr, Hs. split; [constructor | lia].
    + destruct (Hdrain Hsome) as (Hp & _ & Hquiet).
      specialize (IH {| shared := shared s;
                        main_phase := (main_after_stop
                          (elements (connected_clients (shared s)))).2 |}).
      cbn [main_phase] in IH. rewrite Hp in IH. destruct IH as [Hr Hs].
      rewrite Hp. rewrite close_requests_app, Hr, app_nil_r, Hreq.
      split.
      * apply NoDup_fmap_2; [| apply NoDup_elements].
        by intros ws1 ws2 [= ->].
      * by rewrite filter_app, (filter_none _ _ Hquiet).
  - rewrite step_drain_over.
    destruct (main_phase s) eqn:Hphase; cbn [fst snd app];
      try (specialize (IH s); by rewrite Hphase in IH).
    specialize (IH {| shared := shared s; main_phase := Stopped |}).
    destruct (stop_then_quiet _ IH) as [Hr Hs]. unfold main_budget.
    rewrite Hr, Hs. split; [done | lia].
Qed.

Lemma step_stopped s ev :
  main_phase s = Stopped →
  main_phase (step environ json_loads s ev).1 = Stopped
  ∧ connected_clients (shared (step environ json_loads s ev).1)
    ⊆ connected_clients (shared s).
Proof.
  intros Hphase.
  destruct ev as [ws | ws raw now synth | ws | |]; cbn; rewrite ?Hphase; cbn;
    try done.
  - destruct (decide _) as [Hin | Hout]; [| done].
    pose proof (loop_body_clients environ json_loads ws raw now synth (shared s))
      as Hclients.
    destruct (loop_body _ _ _ _ _ _ _) as [[σ effects] [e |]]; cbn in *;
      rewrite Hclients; [| done].
    split; [done |]. apply subseteq_difference_l. reflexivity.
  - destruct (decide _) as [Hin | Hout]; [| done]. cbn.
    split; [done |]. apply subseteq_difference_l. reflexivity.
Qed.

End RunMainFacts.

(** X17.  The shutdown runs once.  In any run of the server, however many
    termination signals arrive, no websocket is sent more than one close
    request by [main] and [server.close()] is called at most once; a signal
    that follows another changes nothing and produces no action. *)
Theorem shutdown_runs_once (environ : gmap string string)
    (json_loads : message → result pyval) :
  (∀ evs,
     NoDup (close_requests (run environ json_loads initial_server evs).2)
     ∧ length (filter (λ a, stops_listener a)
                 (run environ json_loads initial_server evs).2) ≤ 1)
  ∧ (∀ s,
       step environ json_loads (step environ json_loads s Ev_signal).1 Ev_signal
       = ((step environ json_loads s Ev_signal).1, [])).
Proof.
  split.
  - intros evs. apply (run_main_budget environ json_loads evs initial_server).
  - intros s. rewrite (step_signal environ json_loads s).
    destruct (main_phase s) eqn:Hphase; cbn [fst];
      rewrite step_signal; cbn [main_phase]; rewrite ?Hphase; try done.
    destruct (decide (elements (connected_clients (shared s)) = []))
      as [-> | Hsome]; [done |].
    by destruct (main_after_stop_draining _ Hsome) as (-> & _).
Qed.

(** X18.  After the listener is stopped the registry only shrinks.  From a
    state past [server.close()], whatever events follow, [main] stays
    there, no websocket is added to [connected_clients], and [main] takes
    no further action. *)
Theorem stopped_server_only_drains (environ : gmap string string)
    (json_loads : message → result pyval) (s : server) (evs : list event) :
  main_phase s = Stopped →
  main_phase (run environ json_loads s evs).1 = Stopped
  ∧ connected_clients (shared (run environ json_loads s evs).1)
    ⊆ connected_clients (shared s)
  ∧ quiet (run environ json_loads s evs).2.
Proof.
  intros Hphase. split; [| split].
  - revert s Hphase. induction evs as [| ev rest IH]; intros s Hphase; [done |].
    rewrite run_cons. cbn [fst]. apply IH.
    by apply step_stopped.
  - revert s Hphase. induction evs as [| ev rest IH]; intros s Hphase; [done |].
    rewrite run_cons. cbn [fst].
    destruct (step_stopped environ json_loads s ev Hphase) as [Hp Hsub].
    etransitivity; [by apply IH | done].
  - pose proof (run_main_budget environ json_loads evs s) as Hbudget.
    by rewrite Hphase in Hbudget.
Qed.

(** After the shutdown of a server with one session: a late connection, a
    message and the close of the session. *)
Lemma stopped_server_only_drains_witness :
  let s := {| shared := Sample.one; main_phase := Stopped |} in
  let evs := [Ev_connect (Sample.ws 7);
              Ev_message (Sample.ws 0) (Text "hello") 3 Sample.one_chunk;
              Ev_signal;
              Ev_closed (Sample.ws 0)] in
  main_phase (run ∅ Sample.json_loads s evs).1 = Stopped
  ∧ connected_clients (shared (run ∅ Sample.json_loads s evs).1)
    ⊆ connected_clients (shared s)
  ∧ quiet (run ∅ Sample.json_loads s evs).2.
Proof.
  intros s evs. apply (stopped_server_only_drains ∅ Sample.json_loads s evs).
  reflexivity.
Defined.

(** ** Plain text frames *)

Section StripFacts.

Lemma rev_app_length (s1 s2 : string) :
  String.length (String.rev_app s1 s2) = String.length s1 + String.length s2.
Proof.
  revert s2. induction s1 as [| c s1 IH]; intros s2; [done |].
  cbn. rewrite IH. cbn. lia.
Qed.

Lemma rev_length (s : string) : String.length (String.rev s) = String.length s.
Proof. unfold String.rev. rewrite rev_app_length. cbn. lia. Qed.

Lemma lstrip_length (s : string) :
  String.length (Py.lstrip s) ≤ String.length s.
Proof.
  induction s as [| c s IH]; [done |].
  cbn. destruct (Py.isspace c); cbn; lia.
Qed.

Lemma strip_length (s : string) :
  String.length (Py.strip s) ≤ String.length s.
Proof.
  unfold Py.strip. rewrite rev_length.
  etransitivity; [apply lstrip_length |].
  rewrite rev_length. apply lstrip_length.
Qed.

Lemma empty_length (s : string) : s = "" ↔ String.length s = 0.
Proof. by destruct s. Qed.

Lemma lstrip_empty (s : string) :
  Py.lstrip s = "" ↔ all_whitespace s = true.
Proof.
  induction s as [| c s IH]; [done |].
  cbn. destruct (Py.isspace c); cbn; [done |]. by split.
Qed.

Lemma all_whitespace_lstrip (s : string) :
  all_whitespace (Py.lstrip s) = all_whitespace s.
Proof.
  induction s as [| c s IH]; [done |].
  cbn. destruct (Py.isspace c) eqn:Hc; cbn; [done |]. by rewrite Hc.
Qed.

Lemma all_whitespace_rev_app (s1 s2 : string) :
  all_whitespace (String.rev_app s1 s2)
  = all_whitespace s1 && all_whitespace s2.
Proof.
  revert s2. induction s1 as [| c s1 IH]; intros s2; [done |].
  cbn. rewrite IH. cbn.
  by destruct (Py.isspace c), (all_whitespace s1), (all_whitespace s2).
Qed.

Lemma all_whitespace_rev (s : string) :
  all_whitespace (String.rev s) = all_whitespace s.
Proof.
  unfold String.rev. rewrite all_whitespace_rev_app. cbn.
  by destruct (all_whitespace s).
Qed.

Lemma strip_empty (s : string) : Py.strip s = "" ↔ all_whitespace s = true.
Proof.
  unfold Py.strip.
  rewrite empty_length, rev_length, <- empty_length, lstrip_empty.
  by rewrite all_whitespace_rev, all_whitespace_lstrip.
Qed.

End StripFacts.

(** X19.  What a frame that is not JSON gets.  For a message on which
    [json.loads] raises [JSONDecodeError] and which the rate gate lets
    through, the iteration never raises: a binary frame, or a text frame
    made only of whitespace, gets the guidance error; any other text frame
    is trimmed and, if the trimmed text exceeds the length limit, gets the
    length error, and otherwise is dispatched with the default voice.  The
    trimmed text is never longer than the frame. *)
Theorem frame_that_is_not_json (environ : gmap string string)
    (json_loads : message → result pyval) (ws : websocket) (raw : message)
    (now : Q) (synth : pyval → pyval → synthesis) (σ : state) :
  json_loads raw = Raise JSONDecodeError →
  (check_rate_limit (remote_address ws) now (rate_limit_tracker σ)).1 = true →
  (loop_body environ json_loads ws raw now synth σ).2 = None
  ∧ (loop_body environ json_loads ws raw now synth σ).1.2
    = match raw with
      | Binary _ => [Send_json guidance_error]
      | Text s =>
          if all_whitespace s then [Send_json guidance_error]
          else if bool_decide (MAX_TEXT_LENGTH < String.length (Py.strip s))
          then [Send_json length_error]
          else stream_tts (PyStr (Py.strip s)) (PyStr (DEFAULT_VOICE environ))
                 synth
      end
  ∧ match raw with
    | Binary _ => True
    | Text s => String.length (Py.strip s) ≤ String.length s
    end.
Proof.
  intros Hloads Hrate.
  rewrite (loop_body_allowed environ json_loads ws raw now synth σ Hrate).
  cbv zeta.
  rewrite (parse_request_fallback environ json_loads raw JSONDecodeError)
    by done.
  destruct raw as [s | b]; cbn [plain_string_fallback]; [| done].
  split; [| split; [| apply strip_length]].
  - destruct (all_whitespace s) eqn:Hs.
    + apply strip_empty in Hs. by rewrite bool_decide_eq_false_2 by (by intros ?).
    + rewrite bool_decide_eq_true_2
        by (rewrite strip_empty; by rewrite Hs).
      unfold serve_request. cbn [Py.len mbind result_bind].
      case_bool_decide; [done |].
      by rewrite validate_voice_default.
  - destruct (all_whitespace s) eqn:Hs.
    + apply strip_empty in Hs. by rewrite bool_decide_eq_false_2 by (by intros ?).
    + rewrite bool_decide_eq_true_2
        by (rewrite strip_empty; by rewrite Hs).
      unfold serve_request. cbn [Py.len mbind result_bind].
      case_bool_decide; [done |].
      by rewrite validate_voice_default.
Qed.

(** The text frame " hello " on a fresh session. *)
Lemma frame_that_is_not_json_witness :
  (loop_body ∅ Sample.json_loads (Sample.ws 0) (Text " hello ") 0
     Sample.one_chunk Sample.one).1.2
  = stream_tts (PyStr "hello") (PyStr "en-GB-RyanNeural") Sample.one_chunk.
Proof.
  destruct (frame_that_is_not_json ∅ Sample.json_loads (Sample.ws 0)
              (Text " hello ") 0%Q Sample.one_chunk Sample.one)
    as (_ & Heffects & _).
  - reflexivity.
  - vm_compute. reflexivity.
  - exact Heffects.
Defined.



